(** * EZ3D: a shallow embedding of the Three.js wrapper

    The development follows the layout of the JavaScript sources:

    - [Colors]      src/utils/colors.js      (named palette, [parseColor])
    - [GameObject]  src/objects/GameObject.js and the primitives
    - [Scene]       core/Scene.js
    - [Engine]      core/Engine.js

    Conventions of the embedding.

    - A JavaScript number is a real number ([R]): IEEE rounding, NaN and the
      infinities are outside the model, so every arithmetic statement below
      is a statement about the exact value of the expression the code
      evaluates.
    - A string is a [string] of bytes and [toLowerCase] folds the ASCII
      letters only.
    - A method that mutates [this] and returns it is a function from the old
      receiver to the new one; a method that can throw returns a [Result].
    - Objects that are shared by reference (the game objects tracked by a
      scene, the scene held by the engine) live in a store indexed by their
      reference, a [gmap nat _].
    - Three.js itself is not part of the repository.  The render graph is an
      interface ([RenderBackend]); the clock readings of a frame are inputs
      of the frame callback. *)

From Stdlib Require Import Reals Lra String Ascii List ZArith Lia Bool.
From stdpp Require Import gmap strings.
Import ListNotations.

Open Scope R_scope.
Open Scope string_scope.
Open Scope list_scope.

(** ** JavaScript values and errors *)

(** The values the wrapper inspects with [typeof], classified the way
    [parseColor] does.  [JInherited k] is the member that every plain object
    inherits from [Object.prototype] under the key [k] (a function, or the
    prototype object itself for [__proto__]): it is neither a number nor a
    string nor [undefined]. *)
Inductive JSValue : Type :=
| JNumber (x : R)
| JString (s : string)
| JInherited (k : string)
| JOther.

Inductive JSError : Type :=
| TypeError
| Error (message : string).

Inductive Result (A : Type) : Type :=
| Ok (a : A)
| Throw (e : JSError).
Arguments Ok {A} a.
Arguments Throw {A} e.

Definition bind {A B : Type} (r : Result A) (k : A -> Result B) : Result B :=
  match r with
  | Ok a => k a
  | Throw e => Throw e
  end.

(** [a ?? d]: the default [d] of a destructuring pattern applies when the
    property is [undefined]. *)
Definition dflt {A : Type} (a : option A) (d : A) : A :=
  match a with
  | Some v => v
  | None => d
  end.
Infix "??" := dflt (at level 45, left associativity).

(** [String.prototype.toLowerCase], on ASCII. *)
Definition lower_ascii (c : ascii) : ascii :=
  let n := nat_of_ascii c in
  if ((65 <=? n) && (n <=? 90))%nat then ascii_of_nat (n + 32) else c.

Fixpoint toLowerCase (s : string) : string :=
  match s with
  | EmptyString => EmptyString
  | String c rest => String (lower_ascii c) (toLowerCase rest)
  end.

(** ** The built-in [Map]

    A [Map] iterates in insertion order, and [set] on a key that is already
    present overwrites the value where the key stands.  The model is the
    list of entries in iteration order. *)
Module JSMap.

Definition t (V : Type) : Type := list (string * V).

Definition empty {V : Type} : t V := [].

Fixpoint set {V : Type} (k : string) (v : V) (m : t V) : t V :=
  match m with
  | [] => [(k, v)]
  | (k', v') :: rest =>
      if String.eqb k k' then (k, v) :: rest else (k', v') :: set k v rest
  end.

Fixpoint delete {V : Type} (k : string) (m : t V) : t V :=
  match m with
  | [] => []
  | (k', v') :: rest =>
      if String.eqb k k' then rest else (k', v') :: delete k rest
  end.

Fixpoint get {V : Type} (k : string) (m : t V) : option V :=
  match m with
  | [] => None
  | (k', v') :: rest => if String.eqb k k' then Some v' else get k rest
  end.

Definition keys {V : Type} (m : t V) : list string := map fst m.

Definition values {V : Type} (m : t V) : list V := map snd m.

(** The entries stored under [k]. *)
Definition entries_of {V : Type} (k : string) (m : t V) : list (string * V) :=
  List.filter (fun kv => String.eqb k (fst kv)) m.

End JSMap.

(** ** src/utils/colors.js *)
Module Colors.

(** The own properties of the object literal [NAMED_COLORS]. *)
Definition NAMED_COLORS : list (string * Z) :=
  [ ("red", 0xff0000); ("green", 0x00ff00); ("blue", 0x0000ff);
    ("white", 0xffffff); ("black", 0x000000); ("yellow", 0xffff00);
    ("cyan", 0x00ffff); ("magenta", 0xff00ff);
    ("orange", 0xff8c00); ("purple", 0x8b00ff); ("pink", 0xff69b4);
    ("lime", 0x32cd32); ("teal", 0x008080); ("indigo", 0x4b0082);
    ("coral", 0xff7f50); ("salmon", 0xfa8072); ("gold", 0xffd700);
    ("silver", 0xc0c0c0);
    ("gray", 0x808080); ("grey", 0x808080); ("lightgray", 0xd3d3d3);
    ("darkgray", 0x404040);
    ("sky", 0x87ceeb); ("forest", 0x228b22); ("ocean", 0x006994);
    ("sunset", 0xff6b35); ("midnight", 0x191970); ("steel", 0x4a6fa5);
    ("copper", 0xb87333); ("bronze", 0xcd7f32) ]%Z.

Fixpoint own_property (k : string) (o : list (string * Z)) : option Z :=
  match o with
  | [] => None
  | (k', v) :: rest => if String.eqb k k' then Some v else own_property k rest
  end.

(** The property names of [Object.prototype], which an object literal
    inherits. *)
Definition Object_prototype : list string :=
  [ "constructor"; "__defineGetter__"; "__defineSetter__"; "hasOwnProperty";
    "__lookupGetter__"; "__lookupSetter__"; "isPrototypeOf";
    "propertyIsEnumerable"; "toString"; "valueOf"; "__proto__";
    "toLocaleString" ].

(** [NAMED_COLORS[k]]: an own property first, then the prototype chain;
    [None] is [undefined]. *)
Definition get_property (k : string) : option JSValue :=
  match own_property k NAMED_COLORS with
  | Some n => Some (JNumber (IZR n))
  | None =>
      if existsb (String.eqb k) Object_prototype
      then Some (JInherited k) else None
  end.

Definition parseColor (color : JSValue) : JSValue :=
  match color with
  | JNumber _ => color
  | JString s =>
      let lowerColor := toLowerCase s in
      match get_property lowerColor with
      | Some v => v
      | None => color
      end
  | _ => JNumber (IZR 0x4a90d9)
  end.

(** [Math.random()] is an input of the two random pickers: a number that
    the host draws from the interval from 0 (included) to 1 (excluded).
    [Math.floor] is [Zfloor]. *)
Definition randomColor (random : R) : R :=
  IZR (Zfloor (random * IZR 0xffffff)).




End Colors.

(** ** The part of Three.js the wrapper builds on *)

Record Vector3 : Type := { x : R; y : R; z : R }.

Definition Vector3_set (x' y' z' : R) (v : Vector3) : Vector3 :=
  {| x := x'; y := y'; z := z' |}.

Definition setScalar (s : R) (v : Vector3) : Vector3 :=
  {| x := s; y := s; z := s |}.

(** [THREE.MathUtils.degToRad]: [degrees * DEG2RAD], [DEG2RAD = Math.PI / 180]. *)
Definition DEG2RAD : R := PI / 180.
Definition degToRad (degrees : R) : R := degrees * DEG2RAD.

Inductive Geometry : Type :=
| BoxGeometry (width height depth widthSegments heightSegments depthSegments : R)
| SphereGeometry (radius widthSegments heightSegments : R)
| PlaneGeometry (width height widthSegments heightSegments : R)
| CylinderGeometry (radiusTop radiusBottom height radialSegments heightSegments : R)
    (openEnded : bool)
| TorusGeometry (radius tube radialSegments tubularSegments : R).

Inductive MaterialClass : Type :=
| MeshBasicMaterial
| MeshPhongMaterial
| MeshStandardMaterial.

Record Material : Type :=
  { material_class : MaterialClass; color : JSValue; wireframe : bool }.

Record Mesh : Type :=
  { geometry : Geometry;
    material : Material;
    position : Vector3;
    rotation : Vector3;
    scale : Vector3;
    visible : bool }.

(** [new THREE.Mesh(geometry, material)]: at the origin, not rotated, scale
    one, visible. *)
Definition THREE_Mesh (g : Geometry) (m : Material) : Mesh :=
  {| geometry := g; material := m;
     position := {| x := 0; y := 0; z := 0 |};
     rotation := {| x := 0; y := 0; z := 0 |};
     scale := {| x := 1; y := 1; z := 1 |};
     visible := true |}.

Definition with_position (p : Vector3) (m : Mesh) : Mesh :=
  {| geometry := geometry m; material := material m; position := p;
     rotation := rotation m; scale := scale m; visible := visible m |}.

Definition with_rotation (r : Vector3) (m : Mesh) : Mesh :=
  {| geometry := geometry m; material := material m; position := position m;
     rotation := r; scale := scale m; visible := visible m |}.

Definition with_scale (s : Vector3) (m : Mesh) : Mesh :=
  {| geometry := geometry m; material := material m; position := position m;
     rotation := rotation m; scale := s; visible := visible m |}.

Definition with_visible (b : bool) (m : Mesh) : Mesh :=
  {| geometry := geometry m; material := material m; position := position m;
     rotation := rotation m; scale := scale m; visible := b |}.

Definition with_color (c : JSValue) (m : Mesh) : Mesh :=
  {| geometry := geometry m;
     material := {| material_class := material_class (material m); color := c;
                    wireframe := wireframe (material m) |};
     position := position m; rotation := rotation m; scale := scale m;
     visible := visible m |}.

(** ** src/objects/GameObject.js and src/objects/primitives *)
Module GameObject.

(** The configuration object of a constructor; [None] is a key that is
    absent (or [undefined]).  The keys after [materialType] are read by
    the [createGeometry] of the primitives. *)
Record Options : Type :=
  { o_name : option string;
    o_color : option JSValue;
    o_x : option R; o_y : option R; o_z : option R;
    o_rotationX : option R; o_rotationY : option R; o_rotationZ : option R;
    o_scale : option R;
    o_wireframe : option bool;
    o_materialType : option string;
    o_size : option R; o_width : option R; o_height : option R;
    o_depth : option R;
    o_radius : option R; o_radiusTop : option R; o_radiusBottom : option R;
    o_tube : option R;
    o_widthSegments : option R; o_heightSegments : option R;
    o_depthSegments : option R; o_radialSegments : option R;
    o_tubularSegments : option R;
    o_openEnded : option bool }.

(** [options = {}] *)
Definition no_options : Options :=
  {| o_name := None; o_color := None; o_x := None; o_y := None; o_z := None;
     o_rotationX := None; o_rotationY := None; o_rotationZ := None;
     o_scale := None; o_wireframe := None; o_materialType := None;
     o_size := None; o_width := None; o_height := None; o_depth := None;
     o_radius := None; o_radiusTop := None; o_radiusBottom := None;
     o_tube := None; o_widthSegments := None; o_heightSegments := None;
     o_depthSegments := None; o_radialSegments := None;
     o_tubularSegments := None; o_openEnded := None |}.

(** The class an object is an instance of: the abstract base or one of
    the primitives that override [createGeometry]. *)
Inductive Class : Type := Base | Box | Sphere | Plane | Cylinder | Torus.

Definition createGeometry (cls : Class) (options : Options) : Result Geometry :=
  match cls with
  | Base =>
      Throw (Error "GameObject.createGeometry() must be implemented by subclass")
  | Box =>
      let size := o_size options ?? 1 in
      Ok (BoxGeometry (o_width options ?? size) (o_height options ?? size)
            (o_depth options ?? size) (o_widthSegments options ?? 1)
            (o_heightSegments options ?? 1) (o_depthSegments options ?? 1))
  | Sphere =>
      Ok (SphereGeometry (o_radius options ?? 1)
            (o_widthSegments options ?? 32) (o_heightSegments options ?? 16))
  | Plane =>
      let size := o_size options ?? 1 in
      Ok (PlaneGeometry (o_width options ?? size) (o_height options ?? size)
            (o_widthSegments options ?? 1) (o_heightSegments options ?? 1))
  | Cylinder =>
      let radius := o_radius options ?? 1 in
      Ok (CylinderGeometry (o_radiusTop options ?? radius)
            (o_radiusBottom options ?? radius) (o_height options ?? 1)
            (o_radialSegments options ?? 32) (o_heightSegments options ?? 1)
            (o_openEnded options ?? false))
  | Torus =>
      Ok (TorusGeometry (o_radius options ?? 1) (o_tube options ?? 0.4)
            (o_radialSegments options ?? 16) (o_tubularSegments options ?? 48))
  end.

Definition _createMaterial (color : JSValue) (wireframe : bool)
    (materialType : string) : Material :=
  let parsedColor := Colors.parseColor color in
  let cls :=
    if String.eqb materialType "basic" then MeshBasicMaterial
    else if String.eqb materialType "phong" then MeshPhongMaterial
    else MeshStandardMaterial in
  {| material_class := cls; color := parsedColor; wireframe := wireframe |}.

(** An update function, [fn(obj, delta, elapsed)], as its effect on
    [obj.mesh], the only part of the object the built-in animations
    touch. *)
Definition UpdateFn : Type := Mesh -> R -> R -> Mesh.

Record t : Type :=
  { name : string;
    options : Options;
    mesh : Mesh;
    _animations : JSMap.t UpdateFn;
    _customUpdates : list UpdateFn }.

Definition with_mesh (m : Mesh) (this : t) : t :=
  {| name := name this; options := options this; mesh := m;
     _animations := _animations this;
     _customUpdates := _customUpdates this |}.

Definition with_animations (a : JSMap.t UpdateFn) (this : t) : t :=
  {| name := name this; options := options this; mesh := mesh this;
     _animations := a; _customUpdates := _customUpdates this |}.

Definition setPosition (px py pz : R) (this : t) : t :=
  with_mesh
    (with_position (Vector3_set px py pz (position (mesh this))) (mesh this))
    this.

Definition setRotation (rx ry rz : R) (this : t) : t :=
  with_mesh
    (with_rotation
       (Vector3_set (degToRad rx) (degToRad ry) (degToRad rz)
          (rotation (mesh this)))
       (mesh this))
    this.

Definition setScale (s : R) (this : t) : t :=
  with_mesh (with_scale (setScalar s (scale (mesh this))) (mesh this)) this.

Definition setScaleXYZ (sx sy sz : R) (this : t) : t :=
  with_mesh
    (with_scale (Vector3_set sx sy sz (scale (mesh this))) (mesh this)) this.

Definition setColor (c : JSValue) (this : t) : t :=
  with_mesh (with_color (Colors.parseColor c) (mesh this)) this.

Definition setVisible (v : bool) (this : t) : t :=
  with_mesh (with_visible v (mesh this)) this.

(** [new cls(options)].  The setters only write [this.mesh], so the two
    registries, which the source initialises after them, are part of the
    record from the start. *)
Definition new (cls : Class) (options : Options) : Result t :=
  bind (createGeometry cls options) (fun geometry =>
    let material :=
      _createMaterial (o_color options ?? JNumber (IZR 0x4a90d9))
        (o_wireframe options ?? false)
        (o_materialType options ?? "standard") in
    let this :=
      {| name := o_name options ?? EmptyString;
         options := options;
         mesh := THREE_Mesh geometry material;
         _animations := JSMap.empty;
         _customUpdates := [] |} in
    let this := setPosition (o_x options ?? 0) (o_y options ?? 0)
                  (o_z options ?? 0) this in
    let this := setRotation (o_rotationX options ?? 0)
                  (o_rotationY options ?? 0) (o_rotationZ options ?? 0) this in
    let this := setScale (o_scale options ?? 1) this in
    Ok this).

Definition onUpdate (fn : UpdateFn) (this : t) : t :=
  {| name := name this; options := options this; mesh := mesh this;
     _animations := _animations this;
     _customUpdates := _customUpdates this ++ [fn] |}.

Definition _setAnimation (name : string) (fn : UpdateFn) (this : t) : t :=
  with_animations (JSMap.set name fn (_animations this)) this.

Definition stopAnimation (name : string) (this : t) : t :=
  with_animations (JSMap.delete name (_animations this)) this.

(** One pass of a [for ... of] loop over update functions. *)
Definition run_all (fns : list UpdateFn) (delta elapsed : R) (m : Mesh) : Mesh :=
  fold_left (fun obj fn => fn obj delta elapsed) fns m.

Definition update (delta elapsed : R) (this : t) : t :=
  let m := run_all (JSMap.values (_animations this)) delta elapsed (mesh this) in
  let m := run_all (_customUpdates this) delta elapsed m in
  with_mesh m this.

Definition clearAnimations (this : t) : t :=
  {| name := name this; options := options this; mesh := mesh this;
     _animations := JSMap.empty; _customUpdates := [] |}.

Record SpinOptions : Type :=
  { speedX : option R; speedY : option R; speedZ : option R }.

(** The arrow function [spin] registers, closed over the three speeds. *)
Definition spin_fn (speedX speedY speedZ : R) : UpdateFn :=
  fun obj delta _ =>
    with_rotation
      {| x := x (rotation obj) + speedX * delta;
         y := y (rotation obj) + speedY * delta;
         z := z (rotation obj) + speedZ * delta |}
      obj.

Definition spin (o : SpinOptions) (this : t) : t :=
  _setAnimation "spin"
    (spin_fn (speedX o ?? 0) (speedY o ?? 1) (speedZ o ?? 0)) this.

Record FloatOptions : Type :=
  { amplitude : option R; speed : option R }.

(** The arrow function [float] registers, closed over [startY]. *)
Definition float_fn (startY amplitude speed : R) : UpdateFn :=
  fun obj _ elapsed =>
    with_position
      {| x := x (position obj);
         y := startY + sin (elapsed * speed) * amplitude;
         z := z (position obj) |}
      obj.

Definition float (o : FloatOptions) (this : t) : t :=
  let startY := y (position (mesh this)) in
  _setAnimation "float"
    (float_fn startY (amplitude o ?? 0.5) (speed o ?? 1)) this.

Definition getMesh (this : t) : Mesh := mesh this.

(** The calls a client can make on an object once it is constructed. *)
Inductive Call : Type :=
| CallSetPosition (px py pz : R)
| CallSetRotation (rx ry rz : R)
| CallSetScale (s : R)
| CallSetScaleXYZ (sx sy sz : R)
| CallSetColor (c : JSValue)
| CallSetVisible (v : bool)
| CallOnUpdate (fn : UpdateFn)
| CallSetAnimation (name : string) (fn : UpdateFn)
| CallStopAnimation (name : string)
| CallUpdate (delta elapsed : R)
| CallClearAnimations
| CallSpin (o : SpinOptions)
| CallFloat (o : FloatOptions).

Definition call (c : Call) (this : t) : t :=
  match c with
  | CallSetPosition px py pz => setPosition px py pz this
  | CallSetRotation rx ry rz => setRotation rx ry rz this
  | CallSetScale s => setScale s this
  | CallSetScaleXYZ sx sy sz => setScaleXYZ sx sy sz this
  | CallSetColor c => setColor c this
  | CallSetVisible v => setVisible v this
  | CallOnUpdate fn => onUpdate fn this
  | CallSetAnimation name fn => _setAnimation name fn this
  | CallStopAnimation name => stopAnimation name this
  | CallUpdate delta elapsed => update delta elapsed this
  | CallClearAnimations => clearAnimations this
  | CallSpin o => spin o this
  | CallFloat o => float o this
  end.

(** The states an object can be in: freshly constructed, or reached from
    such a state by a call. *)
Inductive Reachable : t -> Prop :=
| Reachable_new cls options this :
    new cls options = Ok this -> Reachable this
| Reachable_call c this :
    Reachable this -> Reachable (call c this).

(** [update] called once per entry of [steps], a pair of [delta] and
    [elapsed], first entry first. *)
Definition updates (steps : list (R * R)) (this : t) : t :=
  fold_left (fun obj step => update (fst step) (snd step) obj) steps this.

(** The sum of the [delta]s of [steps]. *)
Definition total_delta (steps : list (R * R)) : R :=
  fold_right (fun step acc => fst step + acc) 0 steps.

End GameObject.

(** ** The render graph of the backend *)

(** What the wrapper hands to [THREE.Scene.add] and [remove]: the mesh of
    the object stored at a reference, an [Object3D] of the client, or one
    of the two default lights. *)
Inductive Node : Type :=
| NMesh (ref : nat)
| NObject3D (id : nat)
| NAmbientLight (color intensity : R)
| NDirectionalLight (color intensity : R) (position : Vector3).

Class RenderBackend : Type :=
  { Graph : Type;
    graph_new : Graph;
    graph_add : Node -> Graph -> Graph;
    graph_remove : Node -> Graph -> Graph }.

(** A backend to run the model on: the children of the root in the order
    they were added, a node being detached before it is added again. *)
Definition node_eqb (a b : Node) : bool :=
  match a, b with
  | NMesh r, NMesh r' => Nat.eqb r r'
  | NObject3D i, NObject3D i' => Nat.eqb i i'
  | NAmbientLight _ _, NAmbientLight _ _ => true
  | NDirectionalLight _ _ _, NDirectionalLight _ _ _ => true
  | _, _ => false
  end.

Definition detach (n : Node) (g : list Node) : list Node :=
  List.filter (fun n' => negb (node_eqb n n')) g.

#[export] Instance Children : RenderBackend :=
  {| Graph := list Node;
     graph_new := [];
     graph_add := fun n g => detach n g ++ [n];
     graph_remove := detach |}.

(** ** core/Scene.js *)
Module Scene.

Record Options : Type :=
  { o_background : option JSValue;
    o_fov : option R; o_near : option R; o_far : option R;
    o_cameraPosition : option Vector3;
    o_defaultLighting : option bool }.

Definition no_options : Options :=
  {| o_background := None; o_fov := None; o_near := None; o_far := None;
     o_cameraPosition := None; o_defaultLighting := None |}.

Record Camera : Type :=
  { fov : R; aspect : R; near : R; far : R; camera_position : Vector3 }.

Record t `{RenderBackend} : Type :=
  { scene : Graph;
    background : JSValue;
    camera : Camera;
    gameObjects : list nat }.

(** The argument of [add] and [remove], by the two tests they make on it.
    [WithMesh ref] is an object whose [mesh] property is truthy, stored at
    [ref]; [Object3D id] an instance of [THREE.Object3D] without one;
    [Nullish] is [null] or [undefined], on which reading a property
    throws; [Other] is any value left. *)
Inductive Arg : Type :=
| Nullish
| WithMesh (ref : nat)
| Object3D (id : nat)
| Other.

Section Methods.
Context `{RenderBackend}.

Definition with_graph (g : Graph) (this : t) : t :=
  {| scene := g; background := background this; camera := camera this;
     gameObjects := gameObjects this |}.

Definition with_gameObjects (l : list nat) (this : t) : t :=
  {| scene := scene this; background := background this;
     camera := camera this; gameObjects := l |}.

(** [window.innerWidth] and [window.innerHeight] are read from the
    host. *)
Definition _createCamera (fov near far : R) (position : Vector3)
    (innerWidth innerHeight : R) : Camera :=
  {| fov := fov; aspect := innerWidth / innerHeight; near := near;
     far := far; camera_position := position |}.

Definition _setupDefaultLighting (this : t) : t :=
  let ambientLight := NAmbientLight (IZR 0xffffff) 0.5 in
  let this := with_graph (graph_add ambientLight (scene this)) this in
  let directionalLight :=
    NDirectionalLight (IZR 0xffffff) 1 {| x := 5; y := 10; z := 7 |} in
  with_graph (graph_add directionalLight (scene this)) this.

Definition new (options : Options) (innerWidth innerHeight : R) : t :=
  let this :=
    {| scene := graph_new;
       background := o_background options ?? JNumber (IZR 0x0a0a1f);
       camera :=
         _createCamera (o_fov options ?? 75) (o_near options ?? 0.1)
           (o_far options ?? 1000)
           (o_cameraPosition options ?? {| x := 0; y := 0; z := 5 |})
           innerWidth innerHeight;
       gameObjects := [] |} in
  if o_defaultLighting options ?? true
  then _setupDefaultLighting this else this.

Definition add (object : Arg) (this : t) : Result t :=
  match object with
  | Nullish => Throw TypeError
  | WithMesh ref =>
      let this := with_gameObjects (gameObjects this ++ [ref]) this in
      Ok (with_graph (graph_add (NMesh ref) (scene this)) this)
  | Object3D id => Ok (with_graph (graph_add (NObject3D id) (scene this)) this)
  | Other => Ok this
  end.

(** [Array.prototype.indexOf]: the first index holding the reference,
    or [-1]. *)
Fixpoint indexOf (ref : nat) (l : list nat) : Z :=
  match l with
  | [] => (-1)%Z
  | r :: rest =>
      if Nat.eqb ref r then 0%Z
      else let i := indexOf ref rest in
           if (i <? 0)%Z then (-1)%Z else (i + 1)%Z
  end.

(** [l.splice(index, 1)] for an index inside [l]. *)
Definition splice1 (index : nat) (l : list nat) : list nat :=
  firstn index l ++ skipn (S index) l.

Definition remove (object : Arg) (this : t) : Result t :=
  match object with
  | Nullish => Throw TypeError
  | WithMesh ref =>
      let index := indexOf ref (gameObjects this) in
      let this :=
        if (index >? -1)%Z
        then with_gameObjects (splice1 (Z.to_nat index) (gameObjects this)) this
        else this in
      Ok (with_graph (graph_remove (NMesh ref) (scene this)) this)
  | Object3D id =>
      Ok (with_graph (graph_remove (NObject3D id) (scene this)) this)
  | Other => Ok this
  end.

(** The tracked references are looked up in the store of objects; a
    reference the store does not hold stands for an object with a mesh
    but neither [update] nor a [name]. *)
Definition update (delta elapsed : R) (this : t)
    (objects : gmap nat GameObject.t) : gmap nat GameObject.t :=
  fold_left
    (fun objs ref =>
       match objs !! ref with
       | Some gameObject =>
           <[ref := GameObject.update delta elapsed gameObject]> objs
       | None => objs
       end)
    (gameObjects this) objects.

Definition handleResize (width height : R) (this : t) : t :=
  {| scene := scene this; background := background this;
     camera :=
       {| fov := fov (camera this); aspect := width / height;
          near := near (camera this); far := far (camera this);
          camera_position := camera_position (camera this) |};
     gameObjects := gameObjects this |}.

Definition findByName (name : string) (this : t)
    (objects : gmap nat GameObject.t) : option nat :=
  List.find
    (fun ref =>
       match objects !! ref with
       | Some obj => String.eqb (GameObject.name obj) name
       | None => false
       end)
    (gameObjects this).

End Methods.

End Scene.

(** ** core/Engine.js *)
Module Engine.

(** The fields of an engine that the loop reads and writes.  The active
    scene is a reference into the store of scenes; [None] is [null]. *)
Record t : Type :=
  { isRunning : bool;
    activeScene : option nat }.

(** The page an engine runs in: the objects and scenes it can reach, the
    engine, the number of callbacks [requestAnimationFrame] holds for the
    next frame (each is [this._animate] bound to the engine), and the
    scenes [renderer.render] has drawn, latest first. *)
Record World `{RenderBackend} : Type :=
  { objects : gmap nat GameObject.t;
    scenes : gmap nat Scene.t;
    engine : t;
    frameCallbacks : nat;
    draws : list nat }.

Section Methods.
Context `{RenderBackend}.

Definition with_engine (e : t) (w : World) : World :=
  {| objects := objects w; scenes := scenes w; engine := e;
     frameCallbacks := frameCallbacks w; draws := draws w |}.

Definition with_frameCallbacks (n : nat) (w : World) : World :=
  {| objects := objects w; scenes := scenes w; engine := engine w;
     frameCallbacks := n; draws := draws w |}.

(** The constructor: [isRunning = false], [activeScene = null], nothing
    scheduled, nothing drawn. *)
Definition new (objects : gmap nat GameObject.t) (scenes : gmap nat Scene.t)
    : World :=
  {| objects := objects; scenes := scenes;
     engine := {| isRunning := false; activeScene := None |};
     frameCallbacks := 0; draws := [] |}.

Definition requestAnimationFrame (w : World) : World :=
  with_frameCallbacks (S (frameCallbacks w)) w.

(** [this.activeScene.update(delta, elapsed)] followed by
    [this.renderer.render(...)]. *)
Definition update_and_render (s : nat) (sc : Scene.t) (delta elapsed : R)
    (w : World) : World :=
  {| objects := Scene.update delta elapsed sc (objects w);
     scenes := scenes w; engine := engine w;
     frameCallbacks := frameCallbacks w;
     draws := s :: draws w |}.

(** The frame callback.  [delta] and [elapsed] are what the two reads of
    [this.clock] return.  [run] is given scenes of the store, so the
    lookup of the active scene finds it. *)
Definition _animate (delta elapsed : R) (w : World) : World :=
  if negb (isRunning (engine w)) then w
  else
    let w := requestAnimationFrame w in
    match activeScene (engine w) with
    | Some s =>
        match scenes w !! s with
        | Some sc => update_and_render s sc delta elapsed w
        | None => w
        end
    | None => w
    end.

Definition run (scene : nat) (delta elapsed : R) (w : World) : World :=
  let w := with_engine
             {| isRunning := isRunning (engine w); activeScene := Some scene |}
             w in
  let w := with_engine
             {| isRunning := true; activeScene := activeScene (engine w) |}
             w in
  _animate delta elapsed w.

Definition stop (w : World) : World :=
  with_engine
    {| isRunning := false; activeScene := activeScene (engine w) |} w.

(** The host invokes [n] callbacks one after the other; [clock k] is
    what the clock reads in the call that has [k] more to follow. *)
Fixpoint run_callbacks (n : nat) (clock : nat -> R * R) (w : World) : World :=
  match n with
  | O => w
  | S k => run_callbacks k clock (_animate (fst (clock k)) (snd (clock k)) w)
  end.

(** One display frame: the host takes the callbacks scheduled so far and
    invokes them; what they schedule is held for the next frame. *)
Definition frame (clock : nat -> R * R) (w : World) : World :=
  run_callbacks (frameCallbacks w) clock (with_frameCallbacks 0 w).

(** [n] display frames in a row; [clocks i] are the readings in the
    frame that has [i] more to follow. *)
Fixpoint frames (n : nat) (clocks : nat -> nat -> R * R) (w : World) : World :=
  match n with
  | O => w
  | S k => frames k clocks (frame (clocks k) w)
  end.

(** The sum of the [delta]s read in [n] frames that each invoke one
    callback. *)
Fixpoint total_delta (n : nat) (clocks : nat -> nat -> R * R) : R :=
  match n with
  | O => 0
  | S k => fst (clocks k O) + total_delta k clocks
  end.

End Methods.

End Engine.

(** ** Concrete objects to run the model on *)
Module Samples.

(** A box that spins and floats, as [main.js] builds them. *)
Definition box : GameObject.t :=
  {| GameObject.name := "box";
     GameObject.options := GameObject.no_options;
     GameObject.mesh :=
       THREE_Mesh (BoxGeometry 1 1 1 1 1 1)
         (GameObject._createMaterial (JString "coral") false "standard");
     GameObject._animations :=
       [("spin", GameObject.spin_fn 0.5 1 0);
        ("float", GameObject.float_fn 0 0.5 1)];
     GameObject._customUpdates := [] |}.

Definition scene : Scene.t := Scene.new Scene.no_options 800 600.

(** A page with the box, two scenes and an engine just constructed. *)
Definition page : Engine.World :=
  Engine.new (<[7%nat := box]> ∅) (<[1%nat := scene]> (<[2%nat := scene]> ∅)).

(** A clock that reads a sixtieth of a second at every call. *)
Definition clock : nat -> R * R := fun _ => (1 / 60, 1 / 60).

(** A sphere that only spins, a scene that tracks it once under the
    reference 7, and a page with that scene and an engine just
    constructed. *)
Definition spinner : GameObject.t :=
  {| GameObject.name := "ball";
     GameObject.options := GameObject.no_options;
     GameObject.mesh :=
       THREE_Mesh (SphereGeometry 1 32 16)
         (GameObject._createMaterial (JString "sky") false "phong");
     GameObject._animations := [("spin", GameObject.spin_fn 0 1 0)];
     GameObject._customUpdates := [] |}.

Definition stage : Scene.t := Scene.with_gameObjects [7%nat] scene.

Definition studio : Engine.World :=
  Engine.new (<[7%nat := spinner]> ∅) (<[1%nat := stage]> ∅).

End Samples.

(** * Properties *)

(** ** The [Map] model *)
Section JSMapFacts.
Context {V : Type}.
Implicit Types (k : string) (v : V) (m : JSMap.t V).

Lemma JSMap_get_set k v m : JSMap.get k (JSMap.set k v m) = Some v.
Proof.
  induction m as [|[k' v'] rest IH]; simpl.
  - now rewrite String.eqb_refl.
  - destruct (String.eqb k k') eqn:E; simpl.
    + now rewrite String.eqb_refl.
    + now rewrite E.
Qed.

Lemma JSMap_set_fresh k v m :
  k ∉ JSMap.keys m -> JSMap.set k v m = m ++ [(k, v)].
Proof.
  induction m as [|[k' v'] rest IH]; simpl; intros Hk; [reflexivity|].
  apply not_elem_of_cons in Hk as [Hne Hk].
  apply String.eqb_neq in Hne. rewrite Hne. now rewrite IH.
Qed.

(** Overwriting a key leaves every entry where it is. *)
Lemma JSMap_set_present k v v' (before after : JSMap.t V) :
  k ∉ JSMap.keys before ->
  JSMap.set k v' (before ++ (k, v) :: after) = before ++ (k, v') :: after.
Proof.
  induction before as [|[k0 v0] rest IH]; simpl; intros Hk.
  - now rewrite String.eqb_refl.
  - apply not_elem_of_cons in Hk as [Hne Hk].
    apply String.eqb_neq in Hne. rewrite Hne. now rewrite IH.
Qed.

Lemma JSMap_keys_set k v m :
  JSMap.keys (JSMap.set k v m) =
  if bool_decide (k ∈ JSMap.keys m) then JSMap.keys m else JSMap.keys m ++ [k].
Proof.
  induction m as [|[k' v'] rest IH]; simpl; [reflexivity|].
  destruct (String.eqb k k') eqn:E; simpl.
  - apply String.eqb_eq in E as ->.
    rewrite bool_decide_eq_true_2; [reflexivity | apply elem_of_cons; auto].
  - apply String.eqb_neq in E. rewrite IH.
    destruct (bool_decide (k ∈ JSMap.keys rest)) eqn:D.
    + apply bool_decide_eq_true_1 in D.
      rewrite bool_decide_eq_true_2; [reflexivity | apply elem_of_cons; auto].
    + apply bool_decide_eq_false_1 in D.
      rewrite bool_decide_eq_false_2; [reflexivity|].
      intros [?|?]%elem_of_cons; auto.
Qed.

Lemma JSMap_keys_delete_subseteq k m : JSMap.keys (JSMap.delete k m) ⊆ JSMap.keys m.
Proof.
  induction m as [|[k' v'] rest IH]; simpl; [reflexivity|].
  destruct (String.eqb k k'); simpl.
  - intros a Ha. apply elem_of_cons. auto.
  - intros a [->|Ha]%elem_of_cons; apply elem_of_cons; auto.
Qed.

Lemma JSMap_NoDup_set k v m :
  NoDup (JSMap.keys m) -> NoDup (JSMap.keys (JSMap.set k v m)).
Proof.
  intros Hm. rewrite JSMap_keys_set. case_bool_decide as Hk; [assumption|].
  apply NoDup_app. repeat split; [assumption| |apply NoDup_singleton].
  intros a Ha ->%list_elem_of_singleton. contradiction.
Qed.

Lemma JSMap_NoDup_delete k m :
  NoDup (JSMap.keys m) -> NoDup (JSMap.keys (JSMap.delete k m)).
Proof.
  induction m as [|[k' v'] rest IH]; simpl; intros Hm; [assumption|].
  apply NoDup_cons in Hm as [Hk' Hrest].
  destruct (String.eqb k k'); simpl; [assumption|].
  apply NoDup_cons. split; [|auto].
  intros Hin. apply Hk'. now apply (JSMap_keys_delete_subseteq k).
Qed.

Lemma JSMap_entries_of_absent k m :
  k ∉ JSMap.keys m -> JSMap.entries_of k m = [].
Proof.
  induction m as [|[k' v'] rest IH]; simpl; intros Hk; [reflexivity|].
  apply not_elem_of_cons in Hk as [Hne Hk].
  apply String.eqb_neq in Hne. unfold JSMap.entries_of in *. simpl.
  rewrite Hne. auto.
Qed.

(** With distinct keys, the entry just written is the only one under its
    key. *)
Lemma JSMap_entries_of_set k v m :
  NoDup (JSMap.keys m) -> JSMap.entries_of k (JSMap.set k v m) = [(k, v)].
Proof.
  induction m as [|[k' v'] rest IH]; simpl; intros Hm.
  - unfold JSMap.entries_of. simpl. now rewrite String.eqb_refl.
  - apply NoDup_cons in Hm as [Hk' Hrest].
    destruct (String.eqb k k') eqn:E.
    + apply String.eqb_eq in E as <-.
      unfold JSMap.entries_of. simpl. rewrite String.eqb_refl. f_equal.
      now apply JSMap_entries_of_absent.
    + unfold JSMap.entries_of in *. simpl. rewrite E. auto.
Qed.

End JSMapFacts.

(** ** The color resolver *)

Lemma parseColor_number (n : R) : Colors.parseColor (JNumber n) = JNumber n.
Proof. reflexivity. Qed.

Lemma parseColor_named (s : string) (n : Z) :
  Colors.own_property (toLowerCase s) Colors.NAMED_COLORS = Some n ->
  Colors.parseColor (JString s) = JNumber (IZR n).
Proof.
  intros Hown. unfold Colors.parseColor, Colors.get_property. now rewrite Hown.
Qed.

Lemma parseColor_unresolved (s : string) :
  Colors.get_property (toLowerCase s) = None ->
  Colors.parseColor (JString s) = JString s.
Proof. intros Hget. unfold Colors.parseColor. now rewrite Hget. Qed.

Lemma parseColor_default (v : JSValue) :
  (forall n, v <> JNumber n) -> (forall s, v <> JString s) ->
  Colors.parseColor v = JNumber (IZR 0x4a90d9).
Proof.
  intros Hn Hs. destruct v as [n|s|k|]; try reflexivity.
  - now destruct (Hn n).
  - now destruct (Hs s).
Qed.

Example parseColor_RED : Colors.parseColor (JString "RED") = JNumber (IZR 0xff0000).
Proof. reflexivity. Qed.

Example parseColor_hex : Colors.parseColor (JString "#ff0000") = JString "#ff0000".
Proof. reflexivity. Qed.

(** C5.  The lookup [NAMED_COLORS[lowerColor]] also finds what the object
    literal inherits.  The string ["constructor"] is not a key of the
    named-color table, yet [parseColor] does not hand it back: the result
    is the inherited member, which is neither the raw string nor a
    number. *)
Theorem parseColor_constructor :
  Colors.own_property (toLowerCase "constructor") Colors.NAMED_COLORS = None /\
  Colors.parseColor (JString "constructor") = JInherited "constructor" /\
  Colors.parseColor (JString "constructor") <> JString "constructor" /\
  (forall n, Colors.parseColor (JString "constructor") <> JNumber n).
Proof.
  repeat split; try reflexivity; intros; discriminate.
Qed.

(** ** Scene objects *)

Lemma new_animations_empty cls options this :
  GameObject.new cls options = Ok this ->
  GameObject._animations this = [] /\ GameObject._customUpdates this = [].
Proof.
  unfold GameObject.new. destruct (GameObject.createGeometry cls options); simpl.
  - intros [= <-]. split; reflexivity.
  - discriminate.
Qed.

(** The registry of an object never holds a name twice. *)
Lemma Reachable_NoDup this :
  GameObject.Reachable this -> NoDup (JSMap.keys (GameObject._animations this)).
Proof.
  induction 1 as [cls options this Hnew | c this Hreach IH].
  - apply new_animations_empty in Hnew as [-> _]. constructor.
  - destruct c; simpl; try assumption.
    + now apply JSMap_NoDup_set.
    + now apply JSMap_NoDup_delete.
    + constructor.
    + now apply JSMap_NoDup_set.
    + now apply JSMap_NoDup_set.
Qed.

(** C2.  On an object in a reachable state, registering [f] and then [g]
    under one name leaves exactly one entry under that name, and it is [g];
    the same for the sugar [spin] and [float]; and the names of the
    registry are pairwise distinct. *)
Theorem animation_registry_latest_wins (this : GameObject.t) :
  GameObject.Reachable this ->
  NoDup (JSMap.keys (GameObject._animations this)) /\
  (forall name f g,
     let this' := GameObject._setAnimation name g
                    (GameObject._setAnimation name f this) in
     JSMap.entries_of name (GameObject._animations this') = [(name, g)] /\
     JSMap.get name (GameObject._animations this') = Some g) /\
  (forall o1 o2,
     JSMap.entries_of "spin"
       (GameObject._animations (GameObject.spin o2 (GameObject.spin o1 this))) =
     [("spin", GameObject.spin_fn (GameObject.speedX o2 ?? 0)
                 (GameObject.speedY o2 ?? 1) (GameObject.speedZ o2 ?? 0))]) /\
  (forall o1 o2,
     JSMap.entries_of "float"
       (GameObject._animations (GameObject.float o2 (GameObject.float o1 this))) =
     [("float", GameObject.float_fn (y (position (GameObject.mesh this)))
                  (GameObject.amplitude o2 ?? 0.5) (GameObject.speed o2 ?? 1))]).
Proof.
  intros Hreach. pose proof (Reachable_NoDup this Hreach) as Hnd.
  split; [assumption|]. split; [|split].
  - intros name f g. simpl. split.
    + apply JSMap_entries_of_set. now apply JSMap_NoDup_set.
    + apply JSMap_get_set.
  - intros o1 o2. unfold GameObject.spin, GameObject._setAnimation. simpl.
    apply JSMap_entries_of_set. now apply JSMap_NoDup_set.
  - intros o1 o2. unfold GameObject.float, GameObject._setAnimation. simpl.
    apply JSMap_entries_of_set. now apply JSMap_NoDup_set.
Qed.

Lemma animation_registry_latest_wins_witness :
  exists this,
    GameObject.new GameObject.Box GameObject.no_options = Ok this /\
    NoDup (JSMap.keys (GameObject._animations this)) /\
    forall f g,
      JSMap.entries_of "spin"
        (GameObject._animations
           (GameObject._setAnimation "spin" g
              (GameObject._setAnimation "spin" f this))) = [("spin", g)].
Proof.
  eexists. split; [reflexivity|].
  destruct (animation_registry_latest_wins _
              (GameObject.Reachable_new GameObject.Box GameObject.no_options _
                 eq_refl)) as (Hnd & Hset & _).
  split; [exact Hnd|]. intros f g. exact (proj1 (Hset "spin" f g)).
Defined.

Lemma spin_registered (o : GameObject.SpinOptions) (this : GameObject.t) :
  JSMap.get "spin" (GameObject._animations (GameObject.spin o this)) =
  Some (GameObject.spin_fn (GameObject.speedX o ?? 0) (GameObject.speedY o ?? 1)
          (GameObject.speedZ o ?? 0)).
Proof. apply JSMap_get_set. Qed.

Lemma float_registered (o : GameObject.FloatOptions) (this : GameObject.t) :
  JSMap.get "float" (GameObject._animations (GameObject.float o this)) =
  Some (GameObject.float_fn (y (position (GameObject.mesh this)))
          (GameObject.amplitude o ?? 0.5) (GameObject.speed o ?? 1)).
Proof. apply JSMap_get_set. Qed.

(** C3.  After [spin] with speeds 0, 1, 0 (given, or left to the defaults),
    one run of the function registered under ["spin"] with [delta = 1] adds
    exactly 1 to the Y rotation of the object it is run on and leaves its X
    and Z rotation as they were. *)
Theorem spin_once_adds_one_radian (this : GameObject.t) :
  exists fn,
    JSMap.get "spin"
      (GameObject._animations
         (GameObject.spin
            {| GameObject.speedX := Some 0; GameObject.speedY := Some 1;
               GameObject.speedZ := Some 0 |} this)) = Some fn /\
    JSMap.get "spin"
      (GameObject._animations
         (GameObject.spin
            {| GameObject.speedX := None; GameObject.speedY := None;
               GameObject.speedZ := None |} this)) = Some fn /\
    forall obj elapsed,
      y (rotation (fn obj 1 elapsed)) = y (rotation obj) + 1 /\
      x (rotation (fn obj 1 elapsed)) = x (rotation obj) /\
      z (rotation (fn obj 1 elapsed)) = z (rotation obj).
Proof.
  exists (GameObject.spin_fn 0 1 0).
  split; [apply spin_registered|]. split; [apply spin_registered|].
  intros obj elapsed. simpl. repeat split; lra.
Qed.

(** C4.  [float] with amplitude 0.5 and speed 1 (given, or left to the
    defaults) reads the Y position of the object at the call and registers,
    under ["float"], a function that sets Y to that center plus
    [sin (elapsed * speed) * amplitude]: the center itself at [elapsed = 0],
    the center plus 0.5 at [elapsed = PI / 2]. *)
Theorem float_oscillates_around_captured_center (this : GameObject.t) :
  let center := y (position (GameObject.mesh this)) in
  exists fn,
    JSMap.get "float"
      (GameObject._animations
         (GameObject.float
            {| GameObject.amplitude := Some 0.5; GameObject.speed := Some 1 |}
            this)) = Some fn /\
    JSMap.get "float"
      (GameObject._animations
         (GameObject.float
            {| GameObject.amplitude := None; GameObject.speed := None |}
            this)) = Some fn /\
    forall obj delta,
      (forall elapsed,
         y (position (fn obj delta elapsed)) = center + sin (elapsed * 1) * 0.5) /\
      y (position (fn obj delta 0)) = center /\
      y (position (fn obj delta (PI / 2))) = center + 0.5.
Proof.
  intros center.
  exists (GameObject.float_fn center 0.5 1).
  split; [apply float_registered|]. split; [apply float_registered|].
  intros obj delta. simpl. repeat split.
  - rewrite Rmult_0_l, sin_0. lra.
  - rewrite Rmult_1_r, sin_PI2. lra.
Qed.

(** C8.  The rotation a constructor or [setRotation] stores is, on each
    axis, the angle it was given in degrees times [PI / 180]; a constructor
    that does not get that far is the one of the abstract base class. *)
Theorem rotation_is_stored_in_radians :
  (forall cls options,
     match GameObject.new cls options with
     | Ok this =>
         rotation (GameObject.mesh this) =
         {| x := (GameObject.o_rotationX options ?? 0) * (PI / 180);
            y := (GameObject.o_rotationY options ?? 0) * (PI / 180);
            z := (GameObject.o_rotationZ options ?? 0) * (PI / 180) |}
     | Throw _ => cls = GameObject.Base
     end) /\
  (forall rx ry rz this,
     rotation (GameObject.mesh (GameObject.setRotation rx ry rz this)) =
     {| x := rx * (PI / 180); y := ry * (PI / 180); z := rz * (PI / 180) |}).
Proof.
  split.
  - intros cls options. destruct cls; reflexivity.
  - reflexivity.
Qed.

Lemma run_all_app fns fns' delta elapsed m :
  GameObject.run_all (fns ++ fns') delta elapsed m =
  GameObject.run_all fns' delta elapsed (GameObject.run_all fns delta elapsed m).
Proof. unfold GameObject.run_all. apply fold_left_app. Qed.

(** C9.  When [name] already stands in the registry, after the entries
    [before], registering [g] under it changes the function of that entry
    and nothing else: the names keep their order, and [update] runs the
    functions of [before], then [g], then those of [after], then the custom
    updates. *)
Theorem reregistration_keeps_slot (this : GameObject.t) (name : string)
    (f g : GameObject.UpdateFn) (before after : JSMap.t GameObject.UpdateFn) :
  GameObject._animations this = before ++ (name, f) :: after ->
  name ∉ JSMap.keys before ->
  let this' := GameObject._setAnimation name g this in
  GameObject._animations this' = before ++ (name, g) :: after /\
  JSMap.keys (GameObject._animations this') =
    JSMap.keys (GameObject._animations this) /\
  forall delta elapsed,
    GameObject.mesh (GameObject.update delta elapsed this') =
    GameObject.run_all (GameObject._customUpdates this) delta elapsed
      (GameObject.run_all (JSMap.values after) delta elapsed
         (g (GameObject.run_all (JSMap.values before) delta elapsed
               (GameObject.mesh this))
            delta elapsed)).
Proof.
  intros Hreg Hfresh this'.
  assert (Hset : GameObject._animations this' = before ++ (name, g) :: after).
  { unfold this'. simpl. rewrite Hreg. now apply JSMap_set_present. }
  split; [exact Hset|]. split.
  - rewrite Hset, Hreg. unfold JSMap.keys. now rewrite !map_app.
  - intros delta elapsed. unfold GameObject.update. rewrite Hset.
    unfold JSMap.values. rewrite map_app, run_all_app. reflexivity.
Qed.

(** Registering ["spin"] again on a box that spins and floats: the new
    function runs first, as the old one did. *)
Lemma reregistration_keeps_slot_witness :
  GameObject._animations
    (GameObject._setAnimation "spin" (GameObject.spin_fn 0 2 0) Samples.box) =
  [("spin", GameObject.spin_fn 0 2 0); ("float", GameObject.float_fn 0 0.5 1)].
Proof.
  refine (proj1 (reregistration_keeps_slot Samples.box "spin"
                   (GameObject.spin_fn 0.5 1 0) (GameObject.spin_fn 0 2 0)
                   [] [("float", GameObject.float_fn 0 0.5 1)] eq_refl _)).
  apply not_elem_of_nil.
Defined.

(** ** Scenes *)
Section SceneFacts.
Context `{RenderBackend}.

Lemma indexOf_head ref rest : Scene.indexOf ref (ref :: rest) = 0%Z.
Proof. simpl. now rewrite Nat.eqb_refl. Qed.

(** C7.  On a scene that tracks nothing, [add] of a scene object followed
    by [remove] of the same object succeeds, the scene tracks nothing
    again, and [findByName] finds no object, whatever the name asked for
    (the name of the removed object included). *)
Theorem add_then_remove_tracks_nothing (this : Scene.t) (ref : nat)
    (objects : gmap nat GameObject.t) (name : string) :
  Scene.gameObjects this = [] ->
  exists this',
    bind (Scene.add (Scene.WithMesh ref) this) (Scene.remove (Scene.WithMesh ref))
      = Ok this' /\
    Scene.gameObjects this' = [] /\
    Scene.findByName name this' objects = None.
Proof.
  intros Hempty. eexists. split; [reflexivity|].
  simpl. rewrite Hempty. simpl. rewrite Nat.eqb_refl. simpl.
  split; reflexivity.
Qed.

(** C10.  [add] and [remove] of a value that is not [null] or
    [undefined], has no truthy [mesh] and is no [Object3D] return the
    scene as it was, tracked sequence and render graph included; on
    [null] and [undefined] they throw a [TypeError]. *)
Theorem add_remove_ignore_other_values (this : Scene.t) :
  Scene.add Scene.Other this = Ok this /\
  Scene.remove Scene.Other this = Ok this /\
  Scene.add Scene.Nullish this = Throw TypeError /\
  Scene.remove Scene.Nullish this = Throw TypeError.
Proof. repeat split. Qed.

End SceneFacts.

Lemma add_then_remove_tracks_nothing_witness :
  exists this',
    bind (Scene.add (Scene.WithMesh 7) Samples.scene)
      (Scene.remove (Scene.WithMesh 7)) = Ok this' /\
    Scene.gameObjects this' = [] /\
    Scene.findByName "box" this' (<[7%nat := Samples.box]> ∅) = None.
Proof.
  apply (add_then_remove_tracks_nothing Samples.scene 7%nat
           (<[7%nat := Samples.box]> ∅) "box").
  unfold Samples.scene, Scene.new. simpl. reflexivity.
Defined.

(** [scene.add(undefined)] throws: not every value outside the two shapes
    is passed over in silence. *)
Lemma add_undefined_throws :
  Scene.add Scene.Nullish Samples.scene = Throw TypeError /\
  ~ (forall object : Scene.Arg,
       (forall ref, object <> Scene.WithMesh ref) ->
       (forall id, object <> Scene.Object3D id) ->
       Scene.add object Samples.scene = Ok Samples.scene).
Proof.
  split; [reflexivity|].
  intros Hall. specialize (Hall Scene.Nullish).
  discriminate Hall; intros; discriminate.
Qed.

(** ** The render loop *)
Section EngineFacts.
Context `{RenderBackend}.
Implicit Types (w : Engine.World) (clock : nat -> R * R).

Lemma animate_not_running delta elapsed w :
  Engine.isRunning (Engine.engine w) = false ->
  Engine._animate delta elapsed w = w.
Proof. intros Hstop. unfold Engine._animate. now rewrite Hstop. Qed.

Lemma animate_engine delta elapsed w :
  Engine.engine (Engine._animate delta elapsed w) = Engine.engine w.
Proof.
  unfold Engine._animate.
  destruct (Engine.isRunning (Engine.engine w)); simpl; [|reflexivity].
  destruct (Engine.activeScene (Engine.engine w)) as [s|]; [|reflexivity].
  destruct (Engine.scenes w !! s); reflexivity.
Qed.

(** A call of the frame callback schedules one continuation when the
    engine is running and none when it is not. *)
Lemma animate_frameCallbacks delta elapsed w :
  Engine.frameCallbacks (Engine._animate delta elapsed w) =
  if Engine.isRunning (Engine.engine w)
  then S (Engine.frameCallbacks w) else Engine.frameCallbacks w.
Proof.
  unfold Engine._animate.
  destruct (Engine.isRunning (Engine.engine w)); simpl; [|reflexivity].
  destruct (Engine.activeScene (Engine.engine w)) as [s|]; [|reflexivity].
  destruct (Engine.scenes w !! s); reflexivity.
Qed.

Lemma run_callbacks_not_running n clock w :
  Engine.isRunning (Engine.engine w) = false ->
  Engine.run_callbacks n clock w = w.
Proof.
  intros Hstop. induction n as [|n IH]; simpl; [reflexivity|].
  now rewrite animate_not_running.
Qed.

Lemma run_callbacks_engine n clock w :
  Engine.engine (Engine.run_callbacks n clock w) = Engine.engine w.
Proof.
  revert w. induction n as [|n IH]; intros w; simpl; [reflexivity|].
  now rewrite IH, animate_engine.
Qed.

Lemma run_callbacks_running n clock w :
  Engine.isRunning (Engine.engine w) = true ->
  Engine.frameCallbacks (Engine.run_callbacks n clock w) =
  (Engine.frameCallbacks w + n)%nat.
Proof.
  revert w. induction n as [|n IH]; intros w Hrun; simpl; [lia|].
  rewrite IH by now rewrite animate_engine.
  rewrite animate_frameCallbacks, Hrun. lia.
Qed.

Lemma frame_engine clock w :
  Engine.engine (Engine.frame clock w) = Engine.engine w.
Proof. unfold Engine.frame. now rewrite run_callbacks_engine. Qed.

(** While the engine runs, a frame schedules as many continuations as it
    invoked callbacks. *)
Lemma frame_running clock w :
  Engine.isRunning (Engine.engine w) = true ->
  Engine.frameCallbacks (Engine.frame clock w) = Engine.frameCallbacks w.
Proof.
  intros Hrun. unfold Engine.frame. now rewrite run_callbacks_running.
Qed.

(** While the engine does not run, a frame only empties the queue. *)
Lemma frame_not_running clock w :
  Engine.isRunning (Engine.engine w) = false ->
  Engine.frame clock w = Engine.with_frameCallbacks 0 w.
Proof.
  intros Hstop. unfold Engine.frame. now apply run_callbacks_not_running.
Qed.

Lemma frames_running n clocks w :
  Engine.isRunning (Engine.engine w) = true ->
  Engine.engine (Engine.frames n clocks w) = Engine.engine w /\
  Engine.frameCallbacks (Engine.frames n clocks w) = Engine.frameCallbacks w.
Proof.
  revert w. induction n as [|n IH]; intros w Hrun; simpl; [now split|].
  destruct (IH (Engine.frame (clocks n) w)) as [He Hc].
  { now rewrite frame_engine. }
  rewrite He, Hc, frame_engine, frame_running by assumption. now split.
Qed.

Lemma run_engine scene delta elapsed w :
  Engine.engine (Engine.run scene delta elapsed w) =
  {| Engine.isRunning := true; Engine.activeScene := Some scene |}.
Proof. unfold Engine.run. now rewrite animate_engine. Qed.

Lemma run_frameCallbacks scene delta elapsed w :
  Engine.frameCallbacks (Engine.run scene delta elapsed w) =
  S (Engine.frameCallbacks w).
Proof. unfold Engine.run. now rewrite animate_frameCallbacks. Qed.

(** C6.  After [stop], the frame callback returns at once, and the frame
    in which the scheduled callbacks fire changes no object and no scene,
    draws nothing and leaves no callback scheduled. *)
Theorem stop_then_frame_does_nothing w clock delta elapsed :
  Engine._animate delta elapsed (Engine.stop w) = Engine.stop w /\
  Engine.objects (Engine.frame clock (Engine.stop w)) = Engine.objects w /\
  Engine.scenes (Engine.frame clock (Engine.stop w)) = Engine.scenes w /\
  Engine.draws (Engine.frame clock (Engine.stop w)) = Engine.draws w /\
  Engine.isRunning (Engine.engine (Engine.frame clock (Engine.stop w))) = false /\
  Engine.frameCallbacks (Engine.frame clock (Engine.stop w)) = 0%nat.
Proof.
  split; [now apply animate_not_running|].
  rewrite frame_not_running by reflexivity. repeat split.
Qed.

(** C1.  A call of the frame callback schedules exactly one continuation
    while the engine runs and none while it does not, so a frame of an
    engine that does not run leaves nothing scheduled.  From an engine
    with nothing scheduled, [run] followed by any number of frames has
    exactly one continuation scheduled, the engine running on the scene
    it was given.  [run] on any engine makes its argument the active
    scene and leaves the engine running with a continuation scheduled. *)
Theorem run_schedules_one_continuation_per_frame :
  (forall w delta elapsed,
     Engine.frameCallbacks (Engine._animate delta elapsed w) =
     if Engine.isRunning (Engine.engine w)
     then S (Engine.frameCallbacks w) else Engine.frameCallbacks w) /\
  (forall w clock,
     Engine.isRunning (Engine.engine w) = false ->
     Engine.frameCallbacks (Engine.frame clock w) = 0%nat) /\
  (forall w scene delta elapsed n clocks,
     Engine.frameCallbacks w = 0%nat ->
     let w' := Engine.frames n clocks (Engine.run scene delta elapsed w) in
     Engine.frameCallbacks w' = 1%nat /\
     Engine.isRunning (Engine.engine w') = true /\
     Engine.activeScene (Engine.engine w') = Some scene) /\
  (forall w scene delta elapsed,
     let w' := Engine.run scene delta elapsed w in
     Engine.activeScene (Engine.engine w') = Some scene /\
     Engine.isRunning (Engine.engine w') = true /\
     (1 <= Engine.frameCallbacks w')%nat).
Proof.
  split; [intros; apply animate_frameCallbacks|]. split; [|split].
  - intros w clock Hstop. now rewrite frame_not_running.
  - intros w scene delta elapsed n clocks Hnone w'.
    destruct (frames_running n clocks (Engine.run scene delta elapsed w))
      as [He Hc].
    { now rewrite run_engine. }
    unfold w'. rewrite He, Hc, run_engine, run_frameCallbacks, Hnone.
    repeat split.
  - intros w scene delta elapsed w'. unfold w'.
    rewrite run_engine, run_frameCallbacks. repeat split. simpl. lia.
Qed.

End EngineFacts.

(** Two [run] calls in a row leave two continuations scheduled, the next
    frame invokes both and schedules two again, drawing the scene twice;
    and after [stop] the engine does not run while a callback is still
    scheduled. *)
Lemma run_twice_schedules_two_continuations :
  Engine.frameCallbacks
    (Engine.run 2 0 0 (Engine.run 1 0 0 Samples.page)) = 2%nat /\
  Engine.frameCallbacks
    (Engine.frame Samples.clock
       (Engine.run 2 0 0 (Engine.run 1 0 0 Samples.page))) = 2%nat /\
  Engine.draws
    (Engine.frame Samples.clock
       (Engine.run 2 0 0 (Engine.run 1 0 0 Samples.page))) = [2; 2; 2; 1]%nat /\
  Engine.isRunning
    (Engine.engine (Engine.stop (Engine.run 1 0 0 Samples.page))) = false /\
  Engine.frameCallbacks (Engine.stop (Engine.run 1 0 0 Samples.page)) = 1%nat.
Proof. repeat split. Qed.

Lemma run_schedules_one_continuation_per_frame_witness :
  Engine.frameCallbacks Samples.page = 0%nat /\
  Engine.frameCallbacks
    (Engine.frames 3 (fun _ => Samples.clock) (Engine.run 1 0 0 Samples.page)) =
  1%nat.
Proof.
  split; [reflexivity|].
  exact (proj1 (proj1 (proj2 (proj2 run_schedules_one_continuation_per_frame))
                  Samples.page 1%nat 0 0 3%nat (fun _ => Samples.clock) eq_refl)).
Defined.

(** * Further properties of the code *)

(** ** Colors *)








(** Two spellings of one color name that differ in case only resolve to
    the same value. *)
Theorem parseColor_case_insensitive (s s' : string) :
  toLowerCase s = toLowerCase s' ->
  Colors.get_property (toLowerCase s) <> None ->
  Colors.parseColor (JString s) = Colors.parseColor (JString s').
Proof.
  intros Hcase Hfound. unfold Colors.parseColor. rewrite <- Hcase.
  destruct (Colors.get_property (toLowerCase s)); [reflexivity | contradiction].
Qed.

Lemma parseColor_case_insensitive_witness :
  Colors.parseColor (JString "Coral") = Colors.parseColor (JString "CORAL").
Proof.
  apply parseColor_case_insensitive; [reflexivity | discriminate].
Defined.



Lemma Zfloor_scaled_range (u : R) (m : Z) :
  0 <= u < 1 -> (0 < m)%Z -> (0 <= Zfloor (u * IZR m) < m)%Z.
Proof.
  intros [Hu0 Hu1] Hm. apply IZR_lt in Hm.
  pose proof (Zfloor_bound (u * IZR m)) as [Hlo Hhi].
  split.
  - apply Z.lt_succ_r, lt_IZR. rewrite succ_IZR. nra.
  - apply lt_IZR. nra.
Qed.

(** [randomColor] returns an integer from 0 to [0xfffffe]: the factor is
    [0xffffff], not [0x1000000], so white, [0xffffff], is never drawn. *)
Theorem randomColor_range (random : R) :
  0 <= random < 1 ->
  exists n : Z,
    Colors.randomColor random = IZR n /\ (0 <= n <= 0xfffffe)%Z.
Proof.
  intros Hu. exists (Zfloor (random * IZR 0xffffff)). split; [reflexivity|].
  pose proof (Zfloor_scaled_range random 0xffffff Hu eq_refl). lia.
Qed.

Lemma randomColor_range_witness :
  exists n : Z, Colors.randomColor (1 / 2) = IZR n /\ (0 <= n <= 0xfffffe)%Z.
Proof. apply randomColor_range. lra. Defined.



(** ** More on the [Map] model *)
Section JSMapMoreFacts.
Context {V : Type}.
Implicit Types (k : string) (v : V) (m : JSMap.t V).

Lemma JSMap_get_None k m : JSMap.get k m = None <-> k ∉ JSMap.keys m.
Proof.
  induction m as [|[k' v'] rest IH]; simpl.
  - split; [intros _; apply not_elem_of_nil | reflexivity].
  - destruct (String.eqb k k') eqn:E.
    + apply String.eqb_eq in E as ->. split; [discriminate|].
      intros Hk. exfalso. apply Hk. now left.
    + apply String.eqb_neq in E. rewrite IH, not_elem_of_cons. tauto.
Qed.

Lemma JSMap_get_set_ne k k' v m :
  k <> k' -> JSMap.get k' (JSMap.set k v m) = JSMap.get k' m.
Proof.
  intros Hne. induction m as [|[k0 v0] rest IH]; simpl.
  - apply not_eq_sym, String.eqb_neq in Hne. now rewrite Hne.
  - destruct (String.eqb k k0) eqn:E; simpl.
    + apply String.eqb_eq in E as <-.
      apply not_eq_sym, String.eqb_neq in Hne. now rewrite Hne.
    + now rewrite IH.
Qed.

Lemma JSMap_get_delete_ne k k' m :
  k <> k' -> JSMap.get k' (JSMap.delete k m) = JSMap.get k' m.
Proof.
  intros Hne. induction m as [|[k0 v0] rest IH]; simpl; [reflexivity|].
  destruct (String.eqb k k0) eqn:E; simpl.
  - apply String.eqb_eq in E as <-.
    apply not_eq_sym, String.eqb_neq in Hne. now rewrite Hne.
  - now rewrite IH.
Qed.

Lemma JSMap_delete_absent k m : k ∉ JSMap.keys m -> JSMap.delete k m = m.
Proof.
  induction m as [|[k' v'] rest IH]; simpl; intros Hk; [reflexivity|].
  apply not_elem_of_cons in Hk as [Hne Hk].
  apply String.eqb_neq in Hne. rewrite Hne. now rewrite IH.
Qed.

Lemma JSMap_delete_set_fresh k v m :
  k ∉ JSMap.keys m -> JSMap.delete k (JSMap.set k v m) = m.
Proof.
  induction m as [|[k' v'] rest IH]; simpl; intros Hk.
  - now rewrite String.eqb_refl.
  - apply not_elem_of_cons in Hk as [Hne Hk].
    apply String.eqb_neq in Hne. rewrite Hne. simpl. rewrite Hne.
    now rewrite IH.
Qed.

Lemma JSMap_get_delete k m :
  NoDup (JSMap.keys m) -> JSMap.get k (JSMap.delete k m) = None.
Proof.
  induction m as [|[k' v'] rest IH]; simpl; intros Hnd; [reflexivity|].
  apply NoDup_cons in Hnd as [Hk' Hrest].
  destruct (String.eqb k k') eqn:E; simpl.
  - apply String.eqb_eq in E as ->. now apply JSMap_get_None.
  - rewrite E. auto.
Qed.

Lemma JSMap_keys_delete k m :
  NoDup (JSMap.keys m) ->
  JSMap.keys (JSMap.delete k m) =
  List.filter (fun k' => negb (String.eqb k k')) (JSMap.keys m).
Proof.
  induction m as [|[k' v'] rest IH]; simpl; intros Hnd; [reflexivity|].
  apply NoDup_cons in Hnd as [Hk' Hrest].
  destruct (String.eqb k k') eqn:E; simpl.
  - apply String.eqb_eq in E as ->. symmetry.
    apply forallb_filter_id. apply forallb_forall. intros k0 Hin.
    apply negb_true_iff, String.eqb_neq. intros ->.
    apply Hk'. now apply list_elem_of_In.
  - f_equal. now apply IH.
Qed.

End JSMapMoreFacts.

(** ** More on scene objects *)

Lemma with_animations_same (this : GameObject.t) :
  GameObject.with_animations (GameObject._animations this) this = this.
Proof. now destruct this. Qed.

(** A constructor fails exactly for the abstract base class, with the
    error of [createGeometry].  Otherwise the object stands where the
    options put it (at the origin by default), has one scale on the three
    axes, carries the resolved color, and has nothing registered:
    [update] leaves it as it is. *)
Theorem constructor_contract (cls : GameObject.Class) (options : GameObject.Options) :
  match GameObject.new cls options with
  | Throw e =>
      cls = GameObject.Base /\
      e = Error "GameObject.createGeometry() must be implemented by subclass"
  | Ok this =>
      cls <> GameObject.Base /\
      GameObject.name this = GameObject.o_name options ?? EmptyString /\
      position (GameObject.mesh this) =
        {| x := GameObject.o_x options ?? 0; y := GameObject.o_y options ?? 0;
           z := GameObject.o_z options ?? 0 |} /\
      scale (GameObject.mesh this) =
        {| x := GameObject.o_scale options ?? 1;
           y := GameObject.o_scale options ?? 1;
           z := GameObject.o_scale options ?? 1 |} /\
      visible (GameObject.mesh this) = true /\
      color (material (GameObject.mesh this)) =
        Colors.parseColor (GameObject.o_color options ?? JNumber (IZR 0x4a90d9)) /\
      GameObject._animations this = [] /\
      GameObject._customUpdates this = [] /\
      forall delta elapsed, GameObject.update delta elapsed this = this
  end.
Proof.
  destruct cls; simpl; try (split; reflexivity);
    (split; [discriminate|]); repeat split.
Qed.

(** On an object in a reachable state, [stopAnimation] removes the entry
    of the name, keeps every other entry with its function and its place
    in the order, and touches neither the mesh nor the custom updates. *)
Theorem stopAnimation_removes_only_that_name (this : GameObject.t) (name : string) :
  GameObject.Reachable this ->
  let this' := GameObject.stopAnimation name this in
  JSMap.get name (GameObject._animations this') = None /\
  (forall other, other <> name ->
     JSMap.get other (GameObject._animations this') =
     JSMap.get other (GameObject._animations this)) /\
  JSMap.keys (GameObject._animations this') =
    List.filter (fun k => negb (String.eqb name k))
      (JSMap.keys (GameObject._animations this)) /\
  GameObject.mesh this' = GameObject.mesh this /\
  GameObject._customUpdates this' = GameObject._customUpdates this.
Proof.
  intros Hreach this'. pose proof (Reachable_NoDup this Hreach) as Hnd.
  unfold this'. simpl. repeat split.
  - now apply JSMap_get_delete.
  - intros other Hne. apply JSMap_get_delete_ne. congruence.
  - now apply JSMap_keys_delete.
Qed.

Lemma stopAnimation_removes_only_that_name_witness :
  exists this,
    GameObject.new GameObject.Torus GameObject.no_options = Ok this /\
    JSMap.get "spin"
      (GameObject._animations
         (GameObject.stopAnimation "spin"
            (GameObject.spin
               {| GameObject.speedX := None; GameObject.speedY := None;
                  GameObject.speedZ := None |} this))) = None.
Proof.
  eexists. split; [reflexivity|].
  refine (proj1 (stopAnimation_removes_only_that_name _ "spin" _)).
  apply (GameObject.Reachable_call (GameObject.CallSpin _)).
  apply (GameObject.Reachable_new GameObject.Torus GameObject.no_options).
  reflexivity.
Defined.

(** When nothing is registered under a name, [stopAnimation] of it leaves
    the object as it is, and it undoes a [_setAnimation] of that name. *)
Theorem stopAnimation_absent_name (this : GameObject.t) (name : string) :
  JSMap.get name (GameObject._animations this) = None ->
  GameObject.stopAnimation name this = this /\
  forall fn,
    GameObject.stopAnimation name (GameObject._setAnimation name fn this) = this.
Proof.
  intros Habsent. apply JSMap_get_None in Habsent.
  unfold GameObject.stopAnimation, GameObject._setAnimation. split.
  - rewrite JSMap_delete_absent by assumption. apply with_animations_same.
  - intros fn. simpl. rewrite JSMap_delete_set_fresh by assumption.
    now destruct this.
Qed.

Lemma stopAnimation_absent_name_witness :
  GameObject.stopAnimation "bounce" Samples.box = Samples.box.
Proof. exact (proj1 (stopAnimation_absent_name Samples.box "bounce" eq_refl)). Defined.

(** An animation registered under a name that is not yet in the registry
    runs after the animations already registered and before the custom
    updates, however early those were added. *)
Theorem new_animation_runs_after_registered (this : GameObject.t)
    (name : string) (g : GameObject.UpdateFn) :
  JSMap.get name (GameObject._animations this) = None ->
  forall delta elapsed,
    GameObject.mesh
      (GameObject.update delta elapsed (GameObject._setAnimation name g this)) =
    GameObject.run_all (GameObject._customUpdates this) delta elapsed
      (g (GameObject.run_all (JSMap.values (GameObject._animations this))
            delta elapsed (GameObject.mesh this))
         delta elapsed).
Proof.
  intros Habsent delta elapsed. apply JSMap_get_None in Habsent.
  unfold GameObject.update, GameObject._setAnimation. simpl.
  rewrite JSMap_set_fresh by assumption.
  unfold JSMap.values. rewrite map_app, run_all_app. reflexivity.
Qed.

Lemma new_animation_runs_after_registered_witness :
  GameObject.mesh
    (GameObject.update 1 2
       (GameObject._setAnimation "bounce" (GameObject.float_fn 1 2 3) Samples.box)) =
  GameObject.float_fn 1 2 3
    (GameObject.float_fn 0 0.5 1
       (GameObject.spin_fn 0.5 1 0 (GameObject.mesh Samples.box) 1 2) 1 2)
    1 2.
Proof.
  exact (new_animation_runs_after_registered Samples.box "bounce"
           (GameObject.float_fn 1 2 3) eq_refl 1 2).
Defined.

(** A function added with [onUpdate] runs last: after the named
    animations and the custom updates added before it, and also after a
    named animation that is registered later. *)
Theorem onUpdate_runs_last (this : GameObject.t) (fn : GameObject.UpdateFn)
    (delta elapsed : R) :
  GameObject.mesh (GameObject.update delta elapsed (GameObject.onUpdate fn this)) =
    fn (GameObject.mesh (GameObject.update delta elapsed this)) delta elapsed /\
  forall name g,
    GameObject.mesh
      (GameObject.update delta elapsed
         (GameObject._setAnimation name g (GameObject.onUpdate fn this))) =
    fn (GameObject.mesh
          (GameObject.update delta elapsed (GameObject._setAnimation name g this)))
       delta elapsed.
Proof.
  split; [|intros name g]; unfold GameObject.update; simpl;
    now rewrite run_all_app.
Qed.

Lemma updates_registries steps this :
  GameObject._animations (GameObject.updates steps this) =
    GameObject._animations this /\
  GameObject._customUpdates (GameObject.updates steps this) =
    GameObject._customUpdates this.
Proof.
  revert this. induction steps as [|step rest IH]; intros this; [now split|].
  simpl. destruct (IH (GameObject.update (fst step) (snd step) this)) as [-> ->].
  now split.
Qed.

(** After [clearAnimations] no number of updates changes the object,
    whatever was registered before. *)
Theorem clearAnimations_stops_everything (this : GameObject.t)
    (steps : list (R * R)) :
  GameObject.updates steps (GameObject.clearAnimations this) =
    GameObject.clearAnimations this /\
  GameObject.mesh (GameObject.clearAnimations this) = GameObject.mesh this.
Proof.
  split; [|reflexivity].
  induction steps as [|step rest IH]; [reflexivity|]. exact IH.
Qed.

Lemma spin_only_updates (sx sy sz : R) (steps : list (R * R)) (this : GameObject.t) :
  GameObject._animations this = [("spin", GameObject.spin_fn sx sy sz)] ->
  GameObject._customUpdates this = [] ->
  rotation (GameObject.mesh (GameObject.updates steps this)) =
    {| x := x (rotation (GameObject.mesh this)) + sx * GameObject.total_delta steps;
       y := y (rotation (GameObject.mesh this)) + sy * GameObject.total_delta steps;
       z := z (rotation (GameObject.mesh this)) + sz * GameObject.total_delta steps |} /\
  position (GameObject.mesh (GameObject.updates steps this)) =
    position (GameObject.mesh this).
Proof.
  revert this. induction steps as [|[delta elapsed] rest IH]; intros this Ha Hc.
  - simpl. split; [|reflexivity].
    destruct (rotation (GameObject.mesh this)) as [rx ry rz]. simpl.
    f_equal; lra.
  - simpl.
    destruct (IH (GameObject.update delta elapsed this)) as [Hrot Hpos]; try assumption.
    rewrite Hrot, Hpos. unfold GameObject.update. rewrite Ha, Hc. simpl.
    split; [f_equal; lra | reflexivity].
Qed.

(** [spin] accumulates: on an object with nothing else registered, after
    any sequence of updates each rotation angle has grown by its speed
    times the sum of the [delta]s, without bound or wrap-around, and the
    position has not moved. *)
Theorem spin_accumulates (this : GameObject.t) (o : GameObject.SpinOptions)
    (steps : list (R * R)) :
  GameObject._animations this = [] ->
  GameObject._customUpdates this = [] ->
  let this' := GameObject.updates steps (GameObject.spin o this) in
  let total := GameObject.total_delta steps in
  rotation (GameObject.mesh this') =
    {| x := x (rotation (GameObject.mesh this)) + (GameObject.speedX o ?? 0) * total;
       y := y (rotation (GameObject.mesh this)) + (GameObject.speedY o ?? 1) * total;
       z := z (rotation (GameObject.mesh this)) + (GameObject.speedZ o ?? 0) * total |} /\
  position (GameObject.mesh this') = position (GameObject.mesh this).
Proof.
  intros Ha Hc this' total.
  apply (spin_only_updates _ _ _ steps (GameObject.spin o this)).
  - unfold GameObject.spin, GameObject._setAnimation. simpl. now rewrite Ha.
  - exact Hc.
Qed.

Lemma spin_accumulates_witness :
  exists this,
    GameObject.new GameObject.Box GameObject.no_options = Ok this /\
    rotation
      (GameObject.mesh
         (GameObject.updates [(1, 1); (2, 3)]
            (GameObject.spin
               {| GameObject.speedX := Some 0.5; GameObject.speedY := None;
                  GameObject.speedZ := None |} this))) =
    {| x := x (rotation (GameObject.mesh this))
            + 0.5 * GameObject.total_delta [(1, 1); (2, 3)];
       y := y (rotation (GameObject.mesh this))
            + 1 * GameObject.total_delta [(1, 1); (2, 3)];
       z := z (rotation (GameObject.mesh this))
            + 0 * GameObject.total_delta [(1, 1); (2, 3)] |}.
Proof.
  eexists. split; [reflexivity|].
  refine (proj1 (spin_accumulates _
                   {| GameObject.speedX := Some 0.5; GameObject.speedY := None;
                      GameObject.speedZ := None |} [(1, 1); (2, 3)] _ _));
    reflexivity.
Defined.

Lemma float_only_updates (c a s : R) (steps : list (R * R)) (this : GameObject.t) :
  GameObject._animations this = [("float", GameObject.float_fn c a s)] ->
  GameObject._customUpdates this = [] ->
  x (position (GameObject.mesh (GameObject.updates steps this))) =
    x (position (GameObject.mesh this)) /\
  z (position (GameObject.mesh (GameObject.updates steps this))) =
    z (position (GameObject.mesh this)) /\
  rotation (GameObject.mesh (GameObject.updates steps this)) =
    rotation (GameObject.mesh this).
Proof.
  revert this. induction steps as [|[delta elapsed] rest IH]; intros this Ha Hc.
  - now repeat split.
  - simpl.
    destruct (IH (GameObject.update delta elapsed this)) as (Hx & Hz & Hr);
      try assumption.
    rewrite Hx, Hz, Hr. unfold GameObject.update. rewrite Ha, Hc. simpl.
    now repeat split.
Qed.

(** [float] does not accumulate: on an object with nothing else
    registered, after any sequence of updates the height is the center read
    at the call plus [sin (elapsed * speed) * amplitude] for the [elapsed]
    of the last update alone; X, Z and the rotation are as they were. *)
Theorem float_follows_last_elapsed (this : GameObject.t)
    (o : GameObject.FloatOptions) (steps : list (R * R)) (delta elapsed : R) :
  GameObject._animations this = [] ->
  GameObject._customUpdates this = [] ->
  let this' :=
    GameObject.updates (steps ++ [(delta, elapsed)]) (GameObject.float o this) in
  position (GameObject.mesh this') =
    {| x := x (position (GameObject.mesh this));
       y := y (position (GameObject.mesh this))
            + sin (elapsed * (GameObject.speed o ?? 1))
              * (GameObject.amplitude o ?? 0.5);
       z := z (position (GameObject.mesh this)) |} /\
  rotation (GameObject.mesh this') = rotation (GameObject.mesh this).
Proof.
  intros Ha Hc this'. unfold this', GameObject.updates.
  rewrite fold_left_app. simpl.
  fold (GameObject.updates steps (GameObject.float o this)).
  assert (Hreg : GameObject._animations (GameObject.float o this) =
                 [("float", GameObject.float_fn (y (position (GameObject.mesh this)))
                              (GameObject.amplitude o ?? 0.5)
                              (GameObject.speed o ?? 1))]).
  { unfold GameObject.float, GameObject._setAnimation. simpl. now rewrite Ha. }
  assert (Hcus : GameObject._customUpdates (GameObject.float o this) = [])
    by exact Hc.
  destruct (float_only_updates _ _ _ steps _ Hreg Hcus) as (Hx & Hz & Hr).
  destruct (updates_registries steps (GameObject.float o this)) as [Ha' Hc'].
  unfold GameObject.update. rewrite Ha', Hc', Hreg, Hcus. simpl.
  rewrite Hx, Hz, Hr. split; reflexivity.
Qed.

Lemma float_follows_last_elapsed_witness :
  exists this,
    GameObject.new GameObject.Sphere GameObject.no_options = Ok this /\
    rotation
      (GameObject.mesh
         (GameObject.updates ([(1, 1)] ++ [(2, 3)])
            (GameObject.float
               {| GameObject.amplitude := None; GameObject.speed := Some 2 |}
               this))) =
    rotation (GameObject.mesh this).
Proof.
  eexists. split; [reflexivity|].
  refine (proj2 (float_follows_last_elapsed _
                   {| GameObject.amplitude := None; GameObject.speed := Some 2 |}
                   [(1, 1)] 2 3 _ _)); reflexivity.
Defined.

(** Calling [float] again does not restore the first center: after one
    update, a second [float] takes the height that update produced as its
    center. *)
Theorem float_again_recaptures_center (this : GameObject.t)
    (o1 o2 : GameObject.FloatOptions) (delta elapsed : R) :
  GameObject._animations this = [] ->
  GameObject._customUpdates this = [] ->
  GameObject._animations
    (GameObject.float o2
       (GameObject.update delta elapsed (GameObject.float o1 this))) =
  [("float",
    GameObject.float_fn
      (y (position (GameObject.mesh this))
       + sin (elapsed * (GameObject.speed o1 ?? 1))
         * (GameObject.amplitude o1 ?? 0.5))
      (GameObject.amplitude o2 ?? 0.5) (GameObject.speed o2 ?? 1))].
Proof.
  intros Ha Hc.
  unfold GameObject.float, GameObject._setAnimation, GameObject.update.
  simpl. rewrite Ha, Hc. reflexivity.
Qed.

Lemma float_again_recaptures_center_witness :
  exists this,
    GameObject.new GameObject.Sphere GameObject.no_options = Ok this /\
    GameObject._animations
      (GameObject.float {| GameObject.amplitude := None; GameObject.speed := None |}
         (GameObject.update 1 2
            (GameObject.float
               {| GameObject.amplitude := Some 3; GameObject.speed := None |} this))) =
    [("float",
      GameObject.float_fn
        (y (position (GameObject.mesh this)) + sin (2 * 1) * 3) 0.5 1)].
Proof.
  eexists. split; [reflexivity|].
  refine (float_again_recaptures_center _
            {| GameObject.amplitude := Some 3; GameObject.speed := None |}
            {| GameObject.amplitude := None; GameObject.speed := None |}
            1 2 _ _); reflexivity.
Defined.

Lemma spin_float_commute (sx sy sz c a s : R) (m : Mesh) (delta elapsed : R) :
  GameObject.float_fn c a s (GameObject.spin_fn sx sy sz m delta elapsed)
    delta elapsed =
  GameObject.spin_fn sx sy sz (GameObject.float_fn c a s m delta elapsed)
    delta elapsed.
Proof. reflexivity. Qed.

(** [spin] and [float] act on different parts of the mesh: on an object
    that has neither, the result of [update] is the same whichever of the
    two was called first. *)
Theorem spin_float_order_irrelevant (this : GameObject.t)
    (os : GameObject.SpinOptions) (ofl : GameObject.FloatOptions)
    (delta elapsed : R) :
  JSMap.get "spin" (GameObject._animations this) = None ->
  JSMap.get "float" (GameObject._animations this) = None ->
  GameObject.mesh
    (GameObject.update delta elapsed (GameObject.float ofl (GameObject.spin os this))) =
  GameObject.mesh
    (GameObject.update delta elapsed (GameObject.spin os (GameObject.float ofl this))).
Proof.
  intros Hs Hf. apply JSMap_get_None in Hs, Hf.
  unfold GameObject.update, GameObject.float, GameObject.spin,
    GameObject._setAnimation. simpl.
  rewrite (JSMap_set_fresh "spin") by assumption.
  rewrite (JSMap_set_fresh "float" _ (GameObject._animations this)) by assumption.
  rewrite !JSMap_set_fresh.
  - unfold JSMap.values. rewrite !map_app, !run_all_app. simpl. reflexivity.
  - unfold JSMap.keys. rewrite map_app. simpl.
    intros [?|Hin]%elem_of_app; [contradiction|].
    apply list_elem_of_singleton in Hin. discriminate.
  - unfold JSMap.keys. rewrite map_app. simpl.
    intros [?|Hin]%elem_of_app; [contradiction|].
    apply list_elem_of_singleton in Hin. discriminate.
Qed.

Lemma spin_float_order_irrelevant_witness :
  exists this,
    GameObject.new GameObject.Torus GameObject.no_options = Ok this /\
    GameObject.mesh
      (GameObject.update 1 2
         (GameObject.float
            {| GameObject.amplitude := None; GameObject.speed := None |}
            (GameObject.spin
               {| GameObject.speedX := None; GameObject.speedY := None;
                  GameObject.speedZ := None |} this))) =
    GameObject.mesh
      (GameObject.update 1 2
         (GameObject.spin
            {| GameObject.speedX := None; GameObject.speedY := None;
               GameObject.speedZ := None |}
            (GameObject.float
               {| GameObject.amplitude := None; GameObject.speed := None |}
               this))).
Proof.
  eexists. split; [reflexivity|].
  refine (spin_float_order_irrelevant _ _ _ 1 2 _ _); reflexivity.
Defined.

(** ** More on scenes *)
Section SceneMoreFacts.
Context `{RenderBackend}.

Lemma indexOf_absent ref l : ~ In ref l -> Scene.indexOf ref l = (-1)%Z.
Proof.
  induction l as [|r rest IH]; simpl; intros Hnot; [reflexivity|].
  destruct (Nat.eqb ref r) eqn:E.
  - apply Nat.eqb_eq in E. subst. exfalso. apply Hnot. now left.
  - rewrite IH; [reflexivity|]. intros Hin. apply Hnot. now right.
Qed.

Lemma indexOf_first ref before after :
  ~ In ref before ->
  Scene.indexOf ref (before ++ ref :: after) = Z.of_nat (length before).
Proof.
  induction before as [|r rest IH]; simpl; intros Hnot.
  - now rewrite Nat.eqb_refl.
  - destruct (Nat.eqb ref r) eqn:E.
    + apply Nat.eqb_eq in E. subst. exfalso. apply Hnot. now left.
    + rewrite IH by (intros Hin; apply Hnot; now right).
      destruct (Z.of_nat (length rest) <? 0)%Z eqn:Hneg; [|lia].
      apply Z.ltb_lt in Hneg. lia.
Qed.

Lemma index_found (n : nat) : (Z.of_nat n >? -1)%Z = true.
Proof. apply Z.gtb_lt. lia. Qed.

Lemma splice1_middle (before after : list nat) ref :
  Scene.splice1 (length before) (before ++ ref :: after) = before ++ after.
Proof.
  unfold Scene.splice1.
  rewrite firstn_app, Nat.sub_diag, firstn_all. simpl. rewrite app_nil_r.
  change (S (length before)) with (1 + length before)%nat.
  rewrite <- (length_app [ref] before) at 1.
  replace (before ++ ref :: after) with ((before ++ [ref]) ++ after)
    by now rewrite <- app_assoc.
  replace (length ([ref] ++ before)) with (length (before ++ [ref]))
    by (rewrite !length_app; simpl; lia).
  rewrite skipn_app, skipn_all, Nat.sub_diag. reflexivity.
Qed.

Lemma first_occurrence ref (l : list nat) :
  In ref l -> exists before after, l = before ++ ref :: after /\ ~ In ref before.
Proof.
  induction l as [|r rest IH]; [intros []|].
  destruct (Nat.eq_dec r ref) as [->|Hne].
  - intros _. exists [], rest. split; [reflexivity | intros []].
  - intros [Heq|Hin]; [contradiction|].
    destruct (IH Hin) as (before & after & -> & Hnot).
    exists (r :: before), after. split; [reflexivity|].
    intros [Heq|Hin']; [contradiction | contradiction].
Qed.

(** [remove] of an object with a mesh always asks the backend to remove
    the mesh.  From the tracked sequence it takes the first occurrence of
    the object and leaves the rest in order, later occurrences of the same
    object included; an object that is not tracked leaves the sequence as
    it is. *)
Theorem remove_drops_first_occurrence (this : Scene.t) (ref : nat) :
  exists this',
    Scene.remove (Scene.WithMesh ref) this = Ok this' /\
    Scene.scene this' = graph_remove (NMesh ref) (Scene.scene this) /\
    ((~ In ref (Scene.gameObjects this) /\
      Scene.gameObjects this' = Scene.gameObjects this) \/
     (exists before after,
        Scene.gameObjects this = before ++ ref :: after /\
        ~ In ref before /\
        Scene.gameObjects this' = before ++ after)).
Proof.
  eexists. split; [reflexivity|].
  destruct (in_dec Nat.eq_dec ref (Scene.gameObjects this)) as [Hin|Hnot].
  - destruct (first_occurrence _ _ Hin) as (before & after & Hl & Hfirst).
    rewrite Hl, indexOf_first by assumption.
    rewrite index_found. simpl. split; [reflexivity|]. right. exists before, after.
    rewrite Nat2Z.id, splice1_middle. auto.
  - rewrite indexOf_absent by assumption. simpl.
    split; [reflexivity|]. left. auto.
Qed.

(** [add] then [remove] of a scene object gives the tracked sequence back
    when the object was not tracked before.  When it was, the sequence
    loses the first occurrence and keeps the new one at the end: the object
    stays tracked, though its mesh has just been removed from the graph. *)
Theorem add_then_remove_tracked_sequence (this : Scene.t) (ref : nat) :
  exists this',
    bind (Scene.add (Scene.WithMesh ref) this) (Scene.remove (Scene.WithMesh ref))
      = Ok this' /\
    Scene.scene this' =
      graph_remove (NMesh ref) (graph_add (NMesh ref) (Scene.scene this)) /\
    ((~ In ref (Scene.gameObjects this) /\
      Scene.gameObjects this' = Scene.gameObjects this) \/
     (exists before after,
        Scene.gameObjects this = before ++ ref :: after /\
        ~ In ref before /\
        Scene.gameObjects this' = before ++ after ++ [ref])).
Proof.
  eexists. split; [reflexivity|].
  destruct (in_dec Nat.eq_dec ref (Scene.gameObjects this)) as [Hin|Hnot]; simpl.
  - destruct (first_occurrence _ _ Hin) as (before & after & Hl & Hfirst).
    rewrite Hl. rewrite <- app_assoc. simpl.
    rewrite indexOf_first by assumption.
    rewrite index_found. simpl. split; [reflexivity|]. right. exists before, after.
    rewrite Nat2Z.id, splice1_middle. auto.
  - replace (Scene.gameObjects this ++ [ref])
      with (Scene.gameObjects this ++ ref :: []) by reflexivity.
    rewrite indexOf_first by assumption.
    rewrite index_found. simpl. split; [reflexivity|]. left.
    rewrite Nat2Z.id, splice1_middle, app_nil_r. auto.
Qed.

End SceneMoreFacts.

Section SceneUpdateFacts.
Context `{RenderBackend}.
Implicit Types (objects : gmap nat GameObject.t).

Lemma update_fold_lookup delta elapsed (l : list nat) objects (ref : nat) :
  fold_left
    (fun objs r =>
       match objs !! r with
       | Some gameObject => <[r := GameObject.update delta elapsed gameObject]> objs
       | None => objs
       end) l objects !! ref =
  Nat.iter (count_occ Nat.eq_dec l ref) (GameObject.update delta elapsed)
    <$> objects !! ref.
Proof.
  revert objects. induction l as [|r rest IH]; intros objects; simpl.
  - now destruct (objects !! ref).
  - rewrite IH. destruct (Nat.eq_dec r ref) as [->|Hne].
    + destruct (objects !! ref) as [obj|] eqn:Hobj.
      * rewrite lookup_insert_eq. simpl. now rewrite Nat.iter_swap.
      * now rewrite Hobj.
    + destruct (objects !! r) as [obj|]; [|reflexivity].
      now rewrite lookup_insert_ne.
Qed.

(** [Scene.update] calls [update] on an object once for every time the
    scene tracks it: an object that is not tracked is left as it is, one
    that was added twice moves twice as far in a frame.  It adds no object
    to the store and drops none. *)
Theorem scene_update_once_per_occurrence (this : Scene.t) objects
    (delta elapsed : R) :
  (forall ref,
     Scene.update delta elapsed this objects !! ref =
     Nat.iter (count_occ Nat.eq_dec (Scene.gameObjects this) ref)
       (GameObject.update delta elapsed) <$> objects !! ref) /\
  dom (Scene.update delta elapsed this objects) = dom objects.
Proof.
  assert (Hlookup : forall ref,
     Scene.update delta elapsed this objects !! ref =
     Nat.iter (count_occ Nat.eq_dec (Scene.gameObjects this) ref)
       (GameObject.update delta elapsed) <$> objects !! ref).
  { intros ref. apply update_fold_lookup. }
  split; [exact Hlookup|].
  apply set_eq. intros ref. rewrite !elem_of_dom, Hlookup.
  destruct (objects !! ref); simpl; split; intros [? ?]; eauto; discriminate.
Qed.

Lemma findByName_first_match_list (name : string) objects (l : list nat) :
  match
    List.find
      (fun ref =>
         match objects !! ref with
         | Some obj => String.eqb (GameObject.name obj) name
         | None => false
         end) l
  with
  | Some ref =>
      exists before after obj,
        l = before ++ ref :: after /\
        objects !! ref = Some obj /\ GameObject.name obj = name /\
        forall r o, In r before -> objects !! r = Some o ->
                    GameObject.name o <> name
  | None =>
      forall r o, In r l -> objects !! r = Some o -> GameObject.name o <> name
  end.
Proof.
  induction l as [|r rest IH]; simpl.
  - intros r o [].
  - destruct (objects !! r) as [obj|] eqn:Hobj.
    + destruct (String.eqb (GameObject.name obj) name) eqn:E.
      * apply String.eqb_eq in E. exists [], rest, obj.
        repeat split; try assumption. intros r0 o [].
      * apply String.eqb_neq in E.
        destruct (List.find _ rest) as [ref|].
        -- destruct IH as (before & after & obj' & -> & Hl & Hn & Hfirst).
           exists (r :: before), after, obj'. repeat split; try assumption.
           intros r0 o [<-|Hin] Ho; [congruence | eauto].
        -- intros r0 o [<-|Hin] Ho; [congruence | eauto].
    + destruct (List.find _ rest) as [ref|].
      * destruct IH as (before & after & obj' & -> & Hl & Hn & Hfirst).
        exists (r :: before), after, obj'. repeat split; try assumption.
        intros r0 o [<-|Hin] Ho; [congruence | eauto].
      * intros r0 o [<-|Hin] Ho; [congruence | eauto].
Qed.

(** [findByName] returns the first tracked object whose name is the one
    asked for, and nothing exactly when no tracked object has that name. *)
Theorem findByName_first_match (name : string) (this : Scene.t) objects :
  match Scene.findByName name this objects with
  | Some ref =>
      exists before after obj,
        Scene.gameObjects this = before ++ ref :: after /\
        objects !! ref = Some obj /\ GameObject.name obj = name /\
        forall r o, In r before -> objects !! r = Some o ->
                    GameObject.name o <> name
  | None =>
      forall r o, In r (Scene.gameObjects this) -> objects !! r = Some o ->
                  GameObject.name o <> name
  end.
Proof. apply findByName_first_match_list. Qed.

Lemma find_app_first {A : Type} (f : A -> bool) (l l' : list A) :
  List.find f (l ++ l') =
  match List.find f l with
  | Some a => Some a
  | None => List.find f l'
  end.
Proof.
  induction l as [|a rest IH]; simpl; [reflexivity|].
  now destruct (f a).
Qed.

(** Names are not unique, and the earlier object wins: adding an object
    never changes what [findByName] returns for a name it already finds;
    the new object is found under its name only when no tracked object had
    that name. *)
Theorem add_keeps_earlier_match (this : Scene.t) (ref : nat) (name : string)
    objects :
  exists this',
    Scene.add (Scene.WithMesh ref) this = Ok this' /\
    Scene.gameObjects this' = Scene.gameObjects this ++ [ref] /\
    Scene.scene this' = graph_add (NMesh ref) (Scene.scene this) /\
    Scene.findByName name this' objects =
      match Scene.findByName name this objects with
      | Some earlier => Some earlier
      | None =>
          match objects !! ref with
          | Some obj =>
              if String.eqb (GameObject.name obj) name then Some ref else None
          | None => None
          end
      end.
Proof.
  eexists. split; [reflexivity|]. simpl. repeat split.
  unfold Scene.findByName. simpl. rewrite find_app_first.
  destruct (List.find _ (Scene.gameObjects this)); [reflexivity|].
  simpl. destruct (objects !! ref) as [obj|]; [|reflexivity].
  now destruct (String.eqb (GameObject.name obj) name).
Qed.

End SceneUpdateFacts.

(** ** More on the render loop *)
Section EngineMoreFacts.
Context `{RenderBackend}.
Implicit Types (w : Engine.World) (clock : nat -> R * R).

Lemma animate_active delta elapsed w s sc :
  Engine.engine w = {| Engine.isRunning := true; Engine.activeScene := Some s |} ->
  Engine.scenes w !! s = Some sc ->
  Engine._animate delta elapsed w =
  Engine.update_and_render s sc delta elapsed (Engine.requestAnimationFrame w).
Proof.
  intros He Hs. unfold Engine._animate. rewrite He. cbv beta iota zeta delta [negb Engine.isRunning].
  change (Engine.engine (Engine.requestAnimationFrame w)) with (Engine.engine w).
  change (Engine.scenes (Engine.requestAnimationFrame w)) with (Engine.scenes w).
  rewrite He. cbv beta iota delta [Engine.activeScene]. now rewrite Hs.
Qed.

Lemma animate_scenes delta elapsed w :
  Engine.scenes (Engine._animate delta elapsed w) = Engine.scenes w.
Proof.
  unfold Engine._animate.
  destruct (Engine.isRunning (Engine.engine w)); simpl; [|reflexivity].
  destruct (Engine.activeScene (Engine.engine w)) as [s|]; [|reflexivity].
  destruct (Engine.scenes w !! s); reflexivity.
Qed.

Lemma run_callbacks_draws n clock w s sc :
  Engine.engine w = {| Engine.isRunning := true; Engine.activeScene := Some s |} ->
  Engine.scenes w !! s = Some sc ->
  Engine.draws (Engine.run_callbacks n clock w) = repeat s n ++ Engine.draws w /\
  Engine.scenes (Engine.run_callbacks n clock w) = Engine.scenes w.
Proof.
  revert w. induction n as [|n IH]; intros w He Hs; simpl; [now split|].
  destruct (IH (Engine._animate (fst (clock n)) (snd (clock n)) w)) as [Hd Hsc].
  { now rewrite animate_engine. }
  { now rewrite animate_scenes. }
  rewrite Hd, Hsc, animate_scenes, (animate_active _ _ w s sc) by assumption.
  simpl. split; [|reflexivity].
  change (s :: Engine.draws w) with ([s] ++ Engine.draws w).
  rewrite app_assoc, <- repeat_cons. reflexivity.
Qed.

Lemma frame_draws clock w s sc :
  Engine.engine w = {| Engine.isRunning := true; Engine.activeScene := Some s |} ->
  Engine.scenes w !! s = Some sc ->
  Engine.draws (Engine.frame clock w) =
    repeat s (Engine.frameCallbacks w) ++ Engine.draws w /\
  Engine.scenes (Engine.frame clock w) = Engine.scenes w.
Proof.
  intros He Hs. unfold Engine.frame.
  now apply (run_callbacks_draws _ clock (Engine.with_frameCallbacks 0 w) s sc).
Qed.

Lemma frames_draws n clocks w s sc :
  Engine.engine w = {| Engine.isRunning := true; Engine.activeScene := Some s |} ->
  Engine.scenes w !! s = Some sc ->
  Engine.draws (Engine.frames n clocks w) =
    repeat s (n * Engine.frameCallbacks w) ++ Engine.draws w /\
  Engine.scenes (Engine.frames n clocks w) = Engine.scenes w.
Proof.
  revert w. induction n as [|n IH]; intros w He Hs; simpl; [now split|].
  destruct (frame_draws (clocks n) w s sc He Hs) as [Hd Hsc].
  destruct (IH (Engine.frame (clocks n) w)) as [Hd' Hsc'].
  { now rewrite frame_engine. }
  { now rewrite Hsc. }
  rewrite Hd', Hsc', Hd, Hsc, frame_running by now rewrite He.
  split; [|reflexivity]. rewrite app_assoc, <- repeat_app. f_equal. f_equal. lia.
Qed.

(** After [run], whatever the engine was doing before, every draw is a
    draw of the scene given to [run]: a scene that was active before is
    not drawn again.  Started from an engine with nothing scheduled, the
    loop draws once in [run] itself and once in each frame. *)
Theorem run_draws_only_the_new_scene w (s : nat) (sc : Scene.t)
    (delta elapsed : R) (n : nat) (clocks : nat -> nat -> R * R) :
  Engine.scenes w !! s = Some sc ->
  let w' := Engine.frames n clocks (Engine.run s delta elapsed w) in
  (exists k, Engine.draws w' = repeat s k ++ Engine.draws w) /\
  (Engine.frameCallbacks w = 0%nat ->
   Engine.draws w' = repeat s (S n) ++ Engine.draws w) /\
  Engine.scenes w' = Engine.scenes w.
Proof.
  intros Hs w'.
  assert (Hrun : Engine.run s delta elapsed w =
                 Engine.update_and_render s sc delta elapsed
                   (Engine.requestAnimationFrame
                      (Engine.with_engine
                         {| Engine.isRunning := true;
                            Engine.activeScene := Some s |} w))).
  { unfold Engine.run. now apply animate_active. }
  destruct (frames_draws n clocks (Engine.run s delta elapsed w) s sc) as [Hd Hsc].
  { apply run_engine. }
  { now rewrite Hrun. }
  assert (Hall : Engine.draws w' =
                 repeat s (1 + n * S (Engine.frameCallbacks w)) ++ Engine.draws w).
  { unfold w'. rewrite Hd, run_frameCallbacks, Hrun. simpl.
    change (s :: Engine.draws w) with ([s] ++ Engine.draws w).
    rewrite app_assoc, <- repeat_cons. reflexivity. }
  split; [eexists; exact Hall|]. split.
  - intros Hidle. rewrite Hall, Hidle. f_equal. f_equal. lia.
  - unfold w'. rewrite Hsc, Hrun. reflexivity.
Qed.

Lemma frames_not_running n clocks w :
  Engine.isRunning (Engine.engine w) = false ->
  Engine.frames n clocks w =
  match n with
  | O => w
  | S _ => Engine.with_frameCallbacks 0 w
  end.
Proof.
  revert w. induction n as [|n IH]; intros w Hstop; simpl; [reflexivity|].
  rewrite frame_not_running by assumption. rewrite IH by assumption.
  destruct n; reflexivity.
Qed.

(** A stopped engine stays idle: no number of frames after [stop] changes
    an object or a scene or draws anything, and from the first frame on no
    callback is scheduled. *)
Theorem stopped_engine_stays_idle w (n : nat) (clocks : nat -> nat -> R * R) :
  let w' := Engine.frames n clocks (Engine.stop w) in
  Engine.objects w' = Engine.objects w /\
  Engine.scenes w' = Engine.scenes w /\
  Engine.draws w' = Engine.draws w /\
  Engine.isRunning (Engine.engine w') = false /\
  Engine.activeScene (Engine.engine w') = Engine.activeScene (Engine.engine w) /\
  Engine.frameCallbacks w' =
    match n with O => Engine.frameCallbacks w | S _ => 0%nat end.
Proof.
  intros w'. unfold w'. rewrite frames_not_running by reflexivity.
  destruct n; repeat split.
Qed.

Lemma spin_only_update (sx sy sz delta elapsed : R) (obj : GameObject.t) :
  GameObject._animations obj = [("spin", GameObject.spin_fn sx sy sz)] ->
  GameObject._customUpdates obj = [] ->
  GameObject._animations (GameObject.update delta elapsed obj) =
    [("spin", GameObject.spin_fn sx sy sz)] /\
  GameObject._customUpdates (GameObject.update delta elapsed obj) = [] /\
  rotation (GameObject.mesh (GameObject.update delta elapsed obj)) =
    {| x := x (rotation (GameObject.mesh obj)) + sx * delta;
       y := y (rotation (GameObject.mesh obj)) + sy * delta;
       z := z (rotation (GameObject.mesh obj)) + sz * delta |} /\
  position (GameObject.mesh (GameObject.update delta elapsed obj)) =
    position (GameObject.mesh obj).
Proof.
  intros Ha Hc. unfold GameObject.update. rewrite Ha, Hc. simpl.
  repeat split; assumption.
Qed.

Lemma frame_single_callback clock w s sc :
  Engine.engine w = {| Engine.isRunning := true; Engine.activeScene := Some s |} ->
  Engine.scenes w !! s = Some sc ->
  Engine.frameCallbacks w = 1%nat ->
  Engine.frame clock w =
  Engine.update_and_render s sc (fst (clock O)) (snd (clock O))
    (Engine.requestAnimationFrame (Engine.with_frameCallbacks 0 w)).
Proof.
  intros He Hs Hfc. unfold Engine.frame. rewrite Hfc. simpl.
  now apply animate_active.
Qed.

Lemma frames_spin (sx sy sz : R) (s r : nat) (sc : Scene.t) (x0 y0 z0 : R)
    (p0 : Vector3) (clocks : nat -> nat -> R * R) (n : nat) :
  count_occ Nat.eq_dec (Scene.gameObjects sc) r = 1%nat ->
  forall w (total : R) (obj : GameObject.t),
    Engine.engine w = {| Engine.isRunning := true; Engine.activeScene := Some s |} ->
    Engine.scenes w !! s = Some sc ->
    Engine.frameCallbacks w = 1%nat ->
    Engine.objects w !! r = Some obj ->
    GameObject._animations obj = [("spin", GameObject.spin_fn sx sy sz)] ->
    GameObject._customUpdates obj = [] ->
    rotation (GameObject.mesh obj) =
      {| x := x0 + sx * total; y := y0 + sy * total; z := z0 + sz * total |} ->
    position (GameObject.mesh obj) = p0 ->
    exists obj',
      Engine.objects (Engine.frames n clocks w) !! r = Some obj' /\
      rotation (GameObject.mesh obj') =
        {| x := x0 + sx * (total + Engine.total_delta n clocks);
           y := y0 + sy * (total + Engine.total_delta n clocks);
           z := z0 + sz * (total + Engine.total_delta n clocks) |} /\
      position (GameObject.mesh obj') = p0.
Proof.
  intros Honce. induction n as [|n IH];
    intros w total obj He Hs Hfc Hobj Ha Hc Hrot Hpos; simpl.
  - exists obj. split; [assumption|]. split; [|assumption].
    rewrite Hrot. f_equal; lra.
  - destruct (spin_only_update sx sy sz (fst (clocks n O)) (snd (clocks n O))
                obj Ha Hc) as (Ha' & Hc' & Hrot' & Hpos').
    rewrite (frame_single_callback (clocks n) w s sc He Hs Hfc).
    destruct (IH (Engine.update_and_render s sc (fst (clocks n O)) (snd (clocks n O))
                    (Engine.requestAnimationFrame (Engine.with_frameCallbacks 0 w)))
                (total + fst (clocks n O))
                (GameObject.update (fst (clocks n O)) (snd (clocks n O)) obj))
      as (obj' & Hobj' & Hrot'' & Hpos'').
    + exact He.
    + exact Hs.
    + reflexivity.
    + unfold Engine.update_and_render. cbn [Engine.objects].
      change (Engine.objects (Engine.requestAnimationFrame
                                (Engine.with_frameCallbacks 0 w)))
        with (Engine.objects w).
      unfold Scene.update. rewrite update_fold_lookup.
      now rewrite Honce, Hobj.
    + exact Ha'.
    + exact Hc'.
    + rewrite Hrot', Hrot. simpl. f_equal; lra.
    + now rewrite Hpos'.
    + exists obj'. split; [assumption|]. split; [|assumption].
      rewrite Hrot''. f_equal; lra.
Qed.

(** From the engine down to the mesh: when [run] starts an idle engine on
    a scene that tracks a spinning object once, then after any number of
    frames each rotation angle of the object has grown by its speed times
    the sum of all the [delta]s the clock has read, the one read in [run]
    included; the object has not moved. *)
Theorem engine_spins_tracked_object w (s r : nat) (sc : Scene.t)
    (obj : GameObject.t) (sx sy sz delta elapsed : R) (n : nat)
    (clocks : nat -> nat -> R * R) :
  Engine.frameCallbacks w = 0%nat ->
  Engine.scenes w !! s = Some sc ->
  count_occ Nat.eq_dec (Scene.gameObjects sc) r = 1%nat ->
  Engine.objects w !! r = Some obj ->
  GameObject._animations obj = [("spin", GameObject.spin_fn sx sy sz)] ->
  GameObject._customUpdates obj = [] ->
  let total := delta + Engine.total_delta n clocks in
  exists obj',
    Engine.objects (Engine.frames n clocks (Engine.run s delta elapsed w)) !! r =
      Some obj' /\
    rotation (GameObject.mesh obj') =
      {| x := x (rotation (GameObject.mesh obj)) + sx * total;
         y := y (rotation (GameObject.mesh obj)) + sy * total;
         z := z (rotation (GameObject.mesh obj)) + sz * total |} /\
    position (GameObject.mesh obj') = position (GameObject.mesh obj).
Proof.
  intros Hidle Hs Honce Hobj Ha Hc total.
  destruct (spin_only_update sx sy sz delta elapsed obj Ha Hc)
    as (Ha' & Hc' & Hrot' & Hpos').
  assert (Hrun : Engine.run s delta elapsed w =
                 Engine.update_and_render s sc delta elapsed
                   (Engine.requestAnimationFrame
                      (Engine.with_engine
                         {| Engine.isRunning := true;
                            Engine.activeScene := Some s |} w))).
  { unfold Engine.run. now apply animate_active. }
  apply (frames_spin sx sy sz s r sc _ _ _ _ clocks n Honce
           (Engine.run s delta elapsed w) delta
           (GameObject.update delta elapsed obj)).
  - apply run_engine.
  - now rewrite Hrun.
  - now rewrite run_frameCallbacks, Hidle.
  - rewrite Hrun. unfold Engine.update_and_render. cbn [Engine.objects].
    change (Engine.objects
              (Engine.requestAnimationFrame
                 (Engine.with_engine
                    {| Engine.isRunning := true; Engine.activeScene := Some s |} w)))
      with (Engine.objects w).
    unfold Scene.update. rewrite update_fold_lookup.
    now rewrite Honce, Hobj.
  - exact Ha'.
  - exact Hc'.
  - exact Hrot'.
  - exact Hpos'.
Qed.

End EngineMoreFacts.

Lemma run_draws_only_the_new_scene_witness :
  Engine.draws
    (Engine.frames 3 (fun _ => Samples.clock) (Engine.run 2 0 0 Samples.page)) =
  repeat 2%nat 4 ++ Engine.draws Samples.page.
Proof.
  exact (proj1 (proj2 (run_draws_only_the_new_scene Samples.page 2%nat
                         Samples.scene 0 0 3%nat (fun _ => Samples.clock) eq_refl))
           eq_refl).
Defined.

Lemma findByName_first_match_witness :
  exists before after obj,
    Scene.gameObjects Samples.stage = before ++ 7%nat :: after /\
    (<[7%nat := Samples.spinner]> ∅ : gmap nat GameObject.t) !! 7%nat = Some obj /\
    GameObject.name obj = "ball" /\
    forall r o, In r before ->
      (<[7%nat := Samples.spinner]> ∅ : gmap nat GameObject.t) !! r = Some o ->
      GameObject.name o <> "ball".
Proof.
  exact (findByName_first_match "ball" Samples.stage (<[7%nat := Samples.spinner]> ∅)).
Defined.

Lemma engine_spins_tracked_object_witness :
  exists obj',
    Engine.objects
      (Engine.frames 2 (fun _ => Samples.clock) (Engine.run 1 0 0 Samples.studio))
      !! 7%nat = Some obj' /\
    rotation (GameObject.mesh obj') =
      {| x := x (rotation (GameObject.mesh Samples.spinner))
              + 0 * (0 + Engine.total_delta 2 (fun _ => Samples.clock));
         y := y (rotation (GameObject.mesh Samples.spinner))
              + 1 * (0 + Engine.total_delta 2 (fun _ => Samples.clock));
         z := z (rotation (GameObject.mesh Samples.spinner))
              + 0 * (0 + Engine.total_delta 2 (fun _ => Samples.clock)) |} /\
    position (GameObject.mesh obj') = position (GameObject.mesh Samples.spinner).
Proof.
  exact (engine_spins_tracked_object Samples.studio 1%nat 7%nat Samples.stage
           Samples.spinner 0 1 0 0 0 2%nat (fun _ => Samples.clock)
           eq_refl eq_refl eq_refl eq_refl eq_refl eq_refl).
Defined.
